(** * Dispatch layer of the federated search validator

    A shallow embedding of

    - [neurons/validators/api.py]: [response_stream_event] (the
      event-stream relay) and [aggregate_search_results] (the per-tool
      merge of worker responses);
    - [neurons/validators/proxy/uid_manager.py]: [UIDManager] (the
      rotating worker selector).

    The chunks of the stream are Rocq [string]s (only the newline and the
    empty line matter to the relay), the description of an exception is a
    list of Unicode code points, Python dicts keyed by strings are
    [gmap string _], exceptions are the [Raise] branch of [result]. *)

From Stdlib Require Import ZArith Ascii String List.
From stdpp Require Import base tactics option list strings gmap fin_maps sorting.

(** ** Exceptions and fallible computations *)

Inductive exn : Type :=
| TypeError
| AttributeError
| KeyError
| IndexError
| ValueError.

Inductive result (A : Type) : Type :=
| Ok (a : A)
| Raise (e : exn).
Arguments Ok {A} a.
Arguments Raise {A} e.

#[global] Instance result_ret : MRet result := λ A a, Ok a.
#[global] Instance result_bind : MBind result := λ A B k m,
  match m with
  | Ok a => k a
  | Raise e => Raise e
  end.

Definition returns {A : Type} (m : result A) : Prop := ∃ a, m = Ok a.
Definition raises {A : Type} (m : result A) : Prop := ∃ e, m = Raise e.

(** ** Characters that Rocq string literals cannot spell *)

Definition LF : ascii := ascii_of_nat 10.
Definition DQUOTE : ascii := ascii_of_nat 34.
Definition BACKSLASH : ascii := ascii_of_nat 92.

Definition nl : string := String LF EmptyString.

(** * The stream relay ([response_stream_event]) *)

Module StreamRelay.

(** [chunk.split("\n")]: always at least one piece; [n] separators give
    [n + 1] pieces. *)
Fixpoint split_nl (s : string) : list string :=
  match s with
  | EmptyString => [EmptyString]
  | String c rest =>
      if decide (c = LF) then EmptyString :: split_nl rest
      else match split_nl rest with
           | line :: lines => String c line :: lines
           | [] => [String c EmptyString]
           end
  end.

(** [sep.join(pieces)] *)
Fixpoint join (sep : string) (pieces : list string) : string :=
  match pieces with
  | [] => EmptyString
  | [piece] => piece
  | piece :: rest => piece +:+ sep +:+ join sep rest
  end.

(** [f"data: {line if line else ' '}"]. *)
Definition data_line (line : string) : string :=
  "data: " +:+ (if decide (line = EmptyString) then " " else line).

(** The string yielded for one chunk (lines 138-140):
    [lines = chunk.split("\n")],
    [sse_data = "\n".join(f"data: ..." for line in lines)],
    [yield f"{sse_data}\n\n"]. *)
Definition sse_event (chunk : string) : string :=
  let lines := split_nl chunk in
  let sse_data := join nl (data_line <$> lines) in
  sse_data +:+ nl +:+ nl.

(** *** [json.dumps({'error': str(e)})]

    The description of an exception is a Python [str]: a sequence of
    Unicode code points.  The encoder is the default one
    ([ensure_ascii=True], [py_encode_basestring_ascii]): inside the string
    literal the quote and the backslash are escaped, the usual control
    characters have their short escapes, the other characters from [' ']
    to ['~'] stand for themselves, a code point below [0x10000] is written
    [\uxxxx] in lower-case hexadecimal and a code point from [0x10000] on
    as the two [\uxxxx] of its surrogate pair. *)

Definition code_points (s : string) : list N :=
  N_of_ascii <$> list_ascii_of_string s.

Definition hex_digit (n : N) : ascii :=
  if decide (n < 10)%N then ascii_of_N (48 + n) else ascii_of_N (87 + n).

(** ['{0:04x}'.format(n)] for [n] below [0x10000]. *)
Definition hex4 (n : N) : string :=
  String (hex_digit (N.shiftr n 12 mod 16))
    (String (hex_digit (N.shiftr n 8 mod 16))
       (String (hex_digit (N.shiftr n 4 mod 16))
          (String (hex_digit (n mod 16)) EmptyString)))%N.

Definition u_escape (n : N) : string :=
  String BACKSLASH (String "u" (hex4 n)).

Definition json_escape_char (n : N) : string :=
  if decide (n = 34)%N then String BACKSLASH (String DQUOTE EmptyString)
  else if decide (n = 92)%N then String BACKSLASH (String BACKSLASH EmptyString)
  else if decide (n = 10)%N then String BACKSLASH "n"
  else if decide (n = 13)%N then String BACKSLASH "r"
  else if decide (n = 9)%N then String BACKSLASH "t"
  else if decide (n = 8)%N then String BACKSLASH "b"
  else if decide (n = 12)%N then String BACKSLASH "f"
  else if decide (32 ≤ n ∧ n ≤ 126)%N then String (ascii_of_N n) EmptyString
  else if decide (n < 65536)%N then u_escape n
  else
    let n := (n - 65536)%N in
    let s1 := N.lor 55296 (N.land (N.shiftr n 10) 1023) in
    let s2 := N.lor 56320 (N.land n 1023) in
    u_escape s1 +:+ u_escape s2.

Fixpoint json_escape (s : list N) : string :=
  match s with
  | [] => EmptyString
  | c :: rest => json_escape_char c +:+ json_escape rest
  end.

(** [json.dumps(s)] for a string [s]. *)
Definition json_dumps_str (s : list N) : string :=
  String DQUOTE (json_escape s) +:+ String DQUOTE EmptyString.

(** [json.dumps({'error': str_e})], default separators. *)
Definition json_dumps_error (str_e : list N) : string :=
  "{" +:+ json_dumps_str (code_points "error") +:+ ": "
  +:+ json_dumps_str str_e +:+ "}".

(** Line 143: [yield f"data: {json.dumps({'error': str(e)})}\n\n"]. *)
Definition error_event (str_e : list N) : string :=
  "data: " +:+ json_dumps_error str_e +:+ nl +:+ nl.

(** *** The upstream producer

    [neu.scraper_validator.organic(...)] is an asynchronous generator
    consumed once.  A run of it is a finite sequence of responses closed
    either by normal exhaustion or by something raised.  The handler of
    line 141 is [except Exception]: what derives from [Exception] is
    caught, what derives only from [BaseException] (a cancellation) is
    not.  Failures of lines 123-130, before the loop, behave like a
    producer that raises at once. *)

Inductive raised : Type :=
| Exception (str_e : list N)
| BaseExceptionOnly.

Inductive producer : Type :=
| StopAsyncIteration
| Raising (e : raised)
| Yield (response : string) (rest : producer).

Inductive outcome : Type :=
| Returned
| Propagated (e : raised).

(** The [async for] loop of lines 134-140 with its local [merged_chunks];
    the result is the events yielded and how the loop was left. *)
Fixpoint relay_loop (merged_chunks : string) (p : producer)
  : list string * string * option raised :=
  match p with
  | StopAsyncIteration => ([], merged_chunks, None)
  | Raising e => ([], merged_chunks, Some e)
  | Yield response rest =>
      let chunk := response in
      let merged_chunks := merged_chunks +:+ chunk in
      let '(events, merged, r) := relay_loop merged_chunks rest in
      (sse_event chunk :: events, merged, r)
  end.

(** [response_stream_event]: the [try] block around the loop. *)
Definition response_stream_event (p : producer) : list string * outcome :=
  let '(events, _, r) := relay_loop EmptyString p in
  match r with
  | None => (events, Returned)
  | Some (Exception str_e) => (events ++ [error_event str_e], Returned)
  | Some BaseExceptionOnly => (events, Propagated BaseExceptionOnly)
  end.

(** A producer that yields [chunks] and then ends as [last]. *)
Definition yields (chunks : list string) (last : producer) : producer :=
  foldr Yield last chunks.

(** *** Notions used to state the properties of the relay *)

(** No newline inside a string. *)
Fixpoint no_lf (s : string) : Prop :=
  match s with
  | EmptyString => True
  | String c rest => c ≠ LF ∧ no_lf rest
  end.

Definition line1_line2 : string := "line1" +:+ nl +:+ nl +:+ "line2".

End StreamRelay.

(** * The worker selector ([UIDManager]) *)

Module UIDManager.

(** The fields of the object.  [metagraph_I] is the incentive vector
    [self.metagraph.I] of the shared metagraph object, indexed by uid; the
    scores are floating-point numbers in the source and only their order
    is used, so they are integers here.  The wallet is never read.
    [top_uids] is first assigned by [resync]. *)
Record state : Type := State {
  metagraph_I : list Z;
  max_miners_to_use : nat;
  uids : list nat;
  available_uids : list nat;
  top_uids : list nat
}.

(** [__init__] *)
Definition init (I : list Z) : state :=
  {| metagraph_I := I;
     max_miners_to_use := 100;
     uids := [];
     available_uids := [];
     top_uids := [] |}.

(** The environment refreshes the metagraph the object points to. *)
Definition metagraph_sync (I : list Z) (s : state) : state :=
  {| metagraph_I := I;
     max_miners_to_use := max_miners_to_use s;
     uids := uids s;
     available_uids := available_uids s;
     top_uids := top_uids s |}.

Definition score (I : list Z) (uid : nat) : Z := nth uid I 0%Z.

Fixpoint insert_index (I : list Z) (i : nat) (sorted : list nat) : list nat :=
  match sorted with
  | [] => [i]
  | j :: rest =>
      if decide (score I i ≤ score I j)%Z then i :: sorted
      else j :: insert_index I i rest
  end.

(** [I.argsort()]: the indices of [I] by ascending score.  This is a
    stable sort; numpy does not specify the order it gives to equal
    scores, so the properties of the selector are stated through
    [surely_top] and [possibly_top] below, or on facts that hold for any
    such order. *)
Definition argsort (I : list Z) : list nat :=
  foldr (insert_index I) [] (seq 0 (length I)).

(** [self.metagraph.I.argsort()[::-1][: self.max_miners_to_use]] *)
Definition top_of (I : list Z) (k : nat) : list nat :=
  take k (reverse (argsort I)).

(** [resync] *)
Definition resync (available : list nat) (s : state) : state :=
  if decide (length available = 0) then s
  else
    let top := top_of (metagraph_I s) (max_miners_to_use s) in
    let uids1 :=
      if decide (length (uids s) ≠ 0)
      then filter (λ uid, uid ∈ available) (uids s)
      else uids s in
    let uids2 :=
      if decide (length uids1 = 0)
      then filter (λ uid, uid ∈ available) top
      else uids1 in
    {| metagraph_I := metagraph_I s;
       max_miners_to_use := max_miners_to_use s;
       uids := uids2;
       available_uids := available;
       top_uids := top |}.

(** [random.choice(seq)] with the index the generator picks made explicit:
    any [r] selects position [r mod len(seq)]; on an empty sequence it
    raises [IndexError]. *)
Definition random_choice (r : nat) (seq : list nat) : result nat :=
  match seq !! (r mod length seq) with
  | Some x => Ok x
  | None => Raise IndexError
  end.

(** [list.remove(x)]: drops the first occurrence, [ValueError] if none. *)
Fixpoint list_remove (x : nat) (l : list nat) : result (list nat) :=
  match l with
  | [] => Raise ValueError
  | y :: rest =>
      if decide (y = x) then Ok rest
      else rest' ← list_remove x rest; Ok (y :: rest')
  end.

(** [get_miner_uid]: the value returned and the state left behind. *)
Definition get_miner_uid (r : nat) (s : state) : result (nat * state) :=
  let s := if decide (length (uids s) = 0) then resync (available_uids s) s else s in
  uid ← random_choice r (uids s);
  uids' ← list_remove uid (uids s);
  Ok (uid, {| metagraph_I := metagraph_I s;
              max_miners_to_use := max_miners_to_use s;
              uids := uids';
              available_uids := available_uids s;
              top_uids := top_uids s |}).

(** [n] consecutive calls of [get_miner_uid], one random index each. *)
Fixpoint draws (rs : list nat) (s : state) : result (list nat * state) :=
  match rs with
  | [] => Ok ([], s)
  | r :: rs' =>
      '(uid, s1) ← get_miner_uid r s;
      '(ids, s2) ← draws rs' s1;
      Ok (uid :: ids, s2)
  end.

(** The state a failed [get_miner_uid] leaves: the refill attempt has
    run, nothing was removed. *)
Definition after_failed_draw (s : state) : state :=
  if decide (length (uids s) = 0) then resync (available_uids s) s else s.

(** One operation on the object, by a caller or by the environment. *)
Inductive step : state → state → Prop :=
| step_resync available s :
    step s (resync available s)
| step_draw r s uid s' :
    get_miner_uid r s = Ok (uid, s') → step s s'
| step_draw_raises r s e :
    get_miner_uid r s = Raise e → step s (after_failed_draw s)
| step_metagraph I s :
    step s (metagraph_sync I s).

(** The states of an object built by [__init__] and used since. *)
Inductive reachable : state → Prop :=
| reachable_init I : reachable (init I)
| reachable_step s s' : reachable s → step s s' → reachable s'.

(** Follows the spec's words: "CandidatePool as the top-K reachable
    workers ordered by rank descending". *)
Definition CandidatePool_spec (I : list Z) (k : nat) (reachable_set : list nat) : list nat :=
  take k (filter (λ uid, uid ∈ reachable_set) (reverse (argsort I))).

(** *** Notions and scenarios used to state the properties of the selector *)

(** What the object guarantees about its draw list. *)
Definition draw_list_ok (s : state) : Prop :=
  NoDup (uids s) ∧ uids s ⊆ available_uids s.

Definition ranks_descending (n : nat) : list Z := (λ i, Z.of_nat (n - i)) <$> seq 0 n.
Definition ranks_ascending (n : nat) : list Z := (λ i, Z.of_nat (S i)) <$> seq 0 n.

Definition only_worst_available : state :=
  resync [100] (init (ranks_descending 101)).

Definition first_cycle : state :=
  resync (seq 0 101) (init (ranks_descending 101)).
Definition after_rank_change : state :=
  resync (seq 0 101) (metagraph_sync (ranks_ascending 101) first_cycle).

(** Five workers, all available, uid 2 ranked best; and the same object
    once its five uids have been drawn. *)
Definition five_workers : state :=
  resync [0; 1; 2; 3; 4] (init [4; 2; 5; 3; 1]%Z).
Definition five_workers_exhausted : state :=
  match draws [0; 0; 0; 0; 0] five_workers with
  | Ok (_, s) => s
  | Raise _ => five_workers
  end.

End UIDManager.

(** * The result merger ([aggregate_search_results]) *)

Module ResultMerger.

(** The Python values a response field can hold. *)
#[warnings="-register-all"]
Inductive value : Type :=
| VNone
| VBool (b : bool)
| VInt (n : Z)
| VStr (s : string)
| VList (items : list value)
| VDict (entries : list (string * value)).

(** [if result:] *)
Definition truthy (v : value) : bool :=
  match v with
  | VNone => false
  | VBool b => b
  | VInt n => negb (n =? 0)%Z
  | VStr s => negb (String.length s =? 0)%nat
  | VList items => negb (length items =? 0)%nat
  | VDict entries => negb (length entries =? 0)%nat
  end.

(** A response object: its attributes by name. *)
Abbreviation synapse := (gmap string value).

(** [field_mapping] (lines 154-164). *)
Definition field_mapping : gmap string string :=
  list_to_map
    [ ("Twitter Search", "miner_tweets");
      ("Google Search", "search_results");
      ("Google News Search", "google_news_search_results");
      ("Google Image Search", "google_image_search_results");
      ("ArXiv Search", "arxiv_search_results");
      ("Wikipedia Search", "wikipedia_search_results");
      ("Youtube Search", "youtube_search_results");
      ("Hacker News Search", "hacker_news_search_results");
      ("Reddit Search", "reddit_search_results") ].

(** [getattr(synapse, field_name)] where [field_name] comes from
    [dict.get]: a name that is [None] is a [TypeError], an attribute the
    object lacks an [AttributeError]. *)
Definition getattr (s : synapse) (field_name : option string) : result value :=
  match field_name with
  | None => Raise TypeError
  | Some name =>
      match s !! name with
      | Some v => Ok v
      | None => Raise AttributeError
      end
  end.

(** [aggregated[tool]] *)
Definition getitem (aggregated : gmap string value) (tool : string) : result value :=
  match aggregated !! tool with
  | Some v => Ok v
  | None => Raise KeyError
  end.

(** [target.extend(items)]: only lists have the method. *)
Definition extend (target : value) (items : list value) : result value :=
  match target with
  | VList acc => Ok (VList (acc ++ items))
  | _ => Raise AttributeError
  end.

(** The body of the inner loop (lines 169-194) for one response and one
    tool. *)
Definition merge_tool (s : synapse) (tool : string) (aggregated : gmap string value)
  : result (gmap string value) :=
  let field_name := field_mapping !! tool in
  result ← getattr s field_name;
  if truthy result then
    match result with
    | VList items =>
        current ← getitem aggregated tool;
        let aggregated :=
          match current with
          | VNone => <[tool := VList []]> aggregated
          | _ => aggregated
          end in
        target ← getitem aggregated tool;
        extended ← extend target items;
        Ok (<[tool := extended]> aggregated)
    | VDict _ => Ok (<[tool := result]> aggregated)
    | _ => Ok (<[tool := result]> aggregated)
    end
  else Ok aggregated.

(** [for tool in tools] over one response. *)
Fixpoint merge_synapse (s : synapse) (tools : list string) (aggregated : gmap string value)
  : result (gmap string value) :=
  match tools with
  | [] => Ok aggregated
  | tool :: rest =>
      aggregated ← merge_tool s tool aggregated;
      merge_synapse s rest aggregated
  end.

(** [for synapse_index, synapse in enumerate(responses)] *)
Fixpoint merge_responses (responses : list synapse) (tools : list string)
    (aggregated : gmap string value) : result (gmap string value) :=
  match responses with
  | [] => Ok aggregated
  | s :: rest =>
      aggregated ← merge_synapse s tools aggregated;
      merge_responses rest tools aggregated
  end.

(** Lines 197-199: [None] becomes [{}]. *)
Fixpoint fill_defaults (tools : list string) (aggregated : gmap string value)
  : result (gmap string value) :=
  match tools with
  | [] => Ok aggregated
  | tool :: rest =>
      current ← getitem aggregated tool;
      let aggregated :=
        match current with
        | VNone => <[tool := VDict []]> aggregated
        | _ => aggregated
        end in
      fill_defaults rest aggregated
  end.

(** [{tool: None for tool in tools}] *)
Definition initial (tools : list string) : gmap string value :=
  foldl (λ aggregated tool, <[tool := VNone]> aggregated) ∅ tools.

Definition aggregate_search_results (responses : list synapse) (tools : list string)
  : result (gmap string value) :=
  let aggregated := initial tools in
  aggregated ← merge_responses responses tools aggregated;
  fill_defaults tools aggregated.

(** *** Notions and scenarios used to state the properties of the merge *)

(** What one visit of the inner loop does to the value bound to [tool]. *)
Definition merge_value (s : synapse) (tool : string) (current : value) : result value :=
  result ← getattr s (field_mapping !! tool);
  if truthy result then
    match result with
    | VList items =>
        extend (match current with VNone => VList [] | _ => current end) items
    | _ => Ok result
    end
  else Ok current.

Fixpoint iter_merge (n : nat) (s : synapse) (tool : string) (current : value)
  : result value :=
  match n with
  | 0 => Ok current
  | S n => current ← merge_value s tool current; iter_merge n s tool current
  end.

Definition occurrences (tool : string) (tools : list string) : nat :=
  length (filter (λ t, t = tool) tools).

(** The visits of all responses to [tool], [n] per response. *)
Fixpoint merge_values (n : nat) (responses : list synapse) (tool : string)
    (current : value) : result value :=
  match responses with
  | [] => Ok current
  | s :: rest =>
      current ← iter_merge n s tool current;
      merge_values n rest tool current
  end.

(** Line 199 on one value. *)
Definition default_of (v : value) : value :=
  match v with
  | VNone => VDict []
  | _ => v
  end.

Definition is_list (v : value) : bool :=
  match v with
  | VList _ => true
  | _ => false
  end.

(** The value a response holds for a tool, when the tool has a field and
    the response has this field. *)
Definition field_value (s : synapse) (tool : string) : option value :=
  field ← field_mapping !! tool; s !! field.

(** A response has data for the tool when the value is truthy. *)
Definition no_data (responses : list synapse) (tool : string) : Prop :=
  ∀ s v, s ∈ responses → field_value s tool = Some v → truthy v = false.

Definition sequences_only (responses : list synapse) (tool : string) : Prop :=
  ∀ s v, s ∈ responses → field_value s tool = Some v →
         truthy v = true → is_list v = true.

Definition no_sequences (responses : list synapse) (tool : string) : Prop :=
  ∀ s v, s ∈ responses → field_value s tool = Some v →
         truthy v = true → is_list v = false.

(** Every requested tool has a field, every response has it, and the data
    of one tool is either always a sequence or never one. *)
Definition uniform (responses : list synapse) (tools : list string) : Prop :=
  ∀ tool, tool ∈ tools →
    (∀ s, s ∈ responses → is_Some (field_value s tool))
    ∧ (sequences_only responses tool ∨ no_sequences responses tool).

Definition extendable (responses : list synapse) (tool : string) (v : value) : Prop :=
  no_sequences responses tool ∨ v = VNone ∨ is_list v = true.

Definition all_extendable (responses : list synapse) (tools : list string)
    (aggregated : gmap string value) : Prop :=
  ∀ tool, tool ∈ tools →
    ∃ v, aggregated !! tool = Some v ∧ extendable responses tool v.

(** The accumulated value after the sequences [items] have arrived. *)
Definition accumulated (items : list value) : value :=
  match items with
  | [] => VNone
  | _ => VList items
  end.

(** The sequence a response holds for a tool. *)
Definition sequence_of (tool : string) (s : synapse) : list value :=
  match field_value s tool with
  | Some (VList items) => items
  | _ => []
  end.

Definition response_ab : synapse :=
  {[ "search_results" := VList [VStr "a"; VStr "b"] ]}.
Definition response_c : synapse :=
  {[ "search_results" := VList [VStr "c"] ]}.
Definition response_empty_list : synapse :=
  {[ "search_results" := VList [] ]}.
Definition response_x1 : synapse :=
  {[ "search_results" := VDict [("x", VInt 1)] ]}.
Definition response_y2 : synapse :=
  {[ "search_results" := VDict [("y", VInt 2)] ]}.

End ResultMerger.

(** * Readers of the event stream *)

Module StreamReader.
Import StreamRelay.

(** The characters from [' '] to ['~']. *)
Definition printable (c : ascii) : bool :=
  (32 <=? nat_of_ascii c)%nat && (nat_of_ascii c <=? 126)%nat.

Fixpoint all_chars (p : ascii → bool) (s : string) : bool :=
  match s with
  | EmptyString => true
  | String c rest => p c && all_chars p rest
  end.

Fixpoint string_drop (n : nat) (s : string) : string :=
  match n, s with
  | S n, String _ rest => string_drop n rest
  | _, _ => s
  end.

(** The payload line 139 writes for a line of the chunk. *)
Definition pad_blank (line : string) : string :=
  if decide (line = EmptyString) then " " else line.

(** What a reader of the event stream takes from one record: the text
    after the six characters [data: ] of every line before the closing
    blank lines, the lines joined by newlines again. *)
Definition sse_decode (event : string) : string :=
  join nl (string_drop 6 <$> filter (λ line, line ≠ EmptyString) (split_nl event)).

End StreamReader.

(** * Ranking notions for the selector *)

Module Ranking.
Import UIDManager.

(** [u] is scored at least as well as [v]. *)
Definition at_least_as_good (I : list Z) (u v : nat) : Prop :=
  (score I v ≤ score I u)%Z.

(** The uids of the metagraph scored strictly better than [u], and those,
    [u] apart, scored at least as well. *)
Definition strictly_better (I : list Z) (u : nat) : list nat :=
  filter (λ v, (score I u < score I v)%Z) (seq 0 (length I)).

Definition rivals (I : list Z) (u : nat) : list nat :=
  filter (λ v, v ≠ u ∧ (score I u ≤ score I v)%Z) (seq 0 (length I)).

(** [u] is among the [k] first uids however a descending sort orders
    equal scores: fewer than [k] other uids score at least as well. *)
Definition surely_top (I : list Z) (k u : nat) : Prop :=
  u < length I ∧ length (rivals I u) < k.

(** [u] is among the [k] first uids for some order of the equal scores:
    fewer than [k] uids score strictly better. *)
Definition possibly_top (I : list Z) (k u : nat) : Prop :=
  u < length I ∧ length (strictly_better I u) < k.

End Ranking.

(** * Notions on merged values *)

Module MergedValues.
Import ResultMerger.

(** A value the loop stores is [None] or has data. *)
Definition none_or_data (v : value) : Prop := v = VNone ∨ truthy v = true.

End MergedValues.

(** * The endpoints ([handle_search_links], [search_links*], [search]) *)

Module Endpoints.
Import StreamRelay ResultMerger.

(** How a handler ends: with a value, with the [HTTPException] it raises,
    or with something that does not derive from [Exception] passing
    through it. *)
Inductive answer (A : Type) : Type :=
| Returns (a : A)
| HTTPException (status_code : nat) (detail : string)
| PassesThrough.
Arguments Returns {A} a.
Arguments HTTPException {A} status_code detail.
Arguments PassesThrough {A}.

(** Lines 34-46. *)
Definition available_tools : list string :=
  [ "Twitter Search"; "Google Search"; "Google News Search";
    "Google Image Search"; "ArXiv Search"; "Wikipedia Search";
    "Youtube Search"; "Hacker News Search"; "Reddit Search" ].

Definition twitter_tool : list string := ["Twitter Search"].

(** [LinksSearchRequest]; its [model] field only travels to the query
    execution, which is an argument here. *)
Record LinksSearchRequest : Type := {
  prompt : string;
  tools : list string
}.

(** A run of [neu.scraper_validator.organic(query, ...)] for the prompt
    and the tools of the query: the responses it yields and how it ends. *)
Definition organic_run : Type := string → list string → list synapse * option raised.

(** [handle_search_links] (lines 205-234). *)
Definition handle_search_links (organic : organic_run) (body : LinksSearchRequest)
    (access_key : option string) (expected_access_key : string)
    (tools : list string) : answer (gmap string value) :=
  if decide (access_key ≠ Some expected_access_key)
  then HTTPException 401 "Invalid access key"
  else
    let '(synapses, ending) := organic (prompt body) tools in
    match ending with
    | Some (Exception _) => HTTPException 500 "Internal Server Error"
    | Some BaseExceptionOnly => PassesThrough
    | None =>
        match aggregate_search_results synapses tools with
        | Ok aggregated_results => Returns aggregated_results
        | Raise _ => HTTPException 500 "Internal Server Error"
        end
    end.

(** [search_links_web] (lines 264-268). *)
Definition search_links_web (organic : organic_run) (expected_access_key : string)
    (body : LinksSearchRequest) (access_key : option string)
  : answer (gmap string value) :=
  let web_tools := filter (λ tool, tool ≠ "Twitter Search") (tools body) in
  handle_search_links organic body access_key expected_access_key web_tools.

(** [search_links_twitter] (lines 277-281). *)
Definition search_links_twitter (organic : organic_run) (expected_access_key : string)
    (body : LinksSearchRequest) (access_key : option string)
  : answer (gmap string value) :=
  let twitter_tools := twitter_tool in
  handle_search_links organic body access_key expected_access_key twitter_tools.

(** [search_links] (lines 290-293). *)
Definition search_links (organic : organic_run) (expected_access_key : string)
    (body : LinksSearchRequest) (access_key : option string)
  : answer (gmap string value) :=
  handle_search_links organic body access_key expected_access_key available_tools.

(** [search] (lines 245-255): the body of the streaming response is what
    [response_stream_event] yields for the producer of the query. *)
Definition search (p : producer) (expected_access_key : string)
    (access_key : option string) : answer (list string * outcome) :=
  if decide (access_key ≠ Some expected_access_key)
  then HTTPException 401 "Invalid access key"
  else Returns (response_stream_event p).

(** A response that has the nine fields, each an empty or non-empty
    sequence or nothing. *)
Definition sequence_or_nothing (v : value) : Prop :=
  truthy v = true → is_list v = true.

Definition well_formed (s : synapse) : Prop :=
  ∀ tool, tool ∈ available_tools →
    ∃ v, field_value s tool = Some v ∧ sequence_or_nothing v.

(** A response with every field empty. *)
Definition blank_response : synapse :=
  list_to_map
    [ ("miner_tweets", VList []); ("search_results", VList []);
      ("google_news_search_results", VList []);
      ("google_image_search_results", VList []);
      ("arxiv_search_results", VList []); ("wikipedia_search_results", VList []);
      ("youtube_search_results", VList []);
      ("hacker_news_search_results", VList []);
      ("reddit_search_results", VNone) ].

End Endpoints.

(** * Properties of the stream relay *)

Section relay_facts.
Import StreamRelay.

Lemma app_cons c s t : String c s +:+ t = String c (s +:+ t).
Proof. reflexivity. Qed.

Lemma app_empty_l t : EmptyString +:+ t = t.
Proof. reflexivity. Qed.

Lemma string_app_assoc s t u : (s +:+ t) +:+ u = s +:+ (t +:+ u).
Proof.
  induction s as [|c s IH]; [done|].
  rewrite !app_cons. by rewrite IH.
Qed.

Lemma no_lf_app s t : no_lf s → no_lf t → no_lf (s +:+ t).
Proof.
  induction s as [|c s IH]; [done|].
  rewrite app_cons. simpl. intros [Hc Hs] Ht. split; [done|]. by apply IH.
Qed.

Lemma split_nl_nonempty s : split_nl s ≠ [].
Proof.
  destruct s as [|c s]; simpl; [done|].
  case_decide; [done|]. by destruct (split_nl s).
Qed.

Lemma split_nl_no_lf s : Forall no_lf (split_nl s).
Proof.
  induction s as [|c s IH]; simpl.
  - by repeat constructor.
  - case_decide.
    + by constructor.
    + destruct (split_nl s) as [|line lines].
      * by repeat constructor.
      * apply Forall_cons in IH as [Hline Hlines]. by repeat constructor.
Qed.

Lemma split_nl_app_lf x t :
  no_lf x → split_nl (x +:+ String LF t) = x :: split_nl t.
Proof.
  induction x as [|c x IH]; intros Hx.
  - rewrite app_empty_l. simpl. by destruct (decide (LF = LF)).
  - destruct Hx as [Hc Hx]. rewrite app_cons. simpl.
    case_decide; [done|]. by rewrite IH.
Qed.

Lemma split_nl_join pieces t :
  pieces ≠ [] → Forall no_lf pieces →
  split_nl (join nl pieces +:+ String LF t) = pieces ++ split_nl t.
Proof.
  induction pieces as [|x pieces IH]; [done|].
  intros _ Hall. apply Forall_cons in Hall as [Hx Hrest].
  destruct pieces as [|y pieces].
  - simpl. by apply split_nl_app_lf.
  - change (join nl (x :: y :: pieces)) with (x +:+ nl +:+ join nl (y :: pieces)).
    rewrite !string_app_assoc. unfold nl at 1. rewrite app_cons, app_empty_l.
    rewrite split_nl_app_lf by done. rewrite IH by done. done.
Qed.

Lemma data_line_no_lf line : no_lf line → no_lf (data_line line).
Proof.
  intros Hline. unfold data_line. apply no_lf_app.
  - vm_compute. naive_solver.
  - case_decide; [|done]. vm_compute. naive_solver.
Qed.

(** The lines of a framed chunk: one [data: ...] line per line of the
    chunk, then the blank line that closes the record. *)
Lemma split_nl_sse_event chunk :
  split_nl (sse_event chunk)
  = (data_line <$> split_nl chunk) ++ [EmptyString; EmptyString].
Proof.
  unfold sse_event. unfold nl at 2. rewrite app_cons, app_empty_l.
  rewrite split_nl_join.
  - done.
  - intros Hnil. apply fmap_nil_inv in Hnil. by apply split_nl_nonempty in Hnil.
  - apply Forall_fmap. eapply Forall_impl; [apply split_nl_no_lf|].
    intros line Hline. by apply data_line_no_lf.
Qed.

Lemma relay_loop_yields merged chunks last :
  relay_loop merged (yields chunks last)
  = let '(events, merged', r) := relay_loop (foldl String.app merged chunks) last in
    ((sse_event <$> chunks) ++ events, merged', r).
Proof.
  revert merged. induction chunks as [|chunk chunks IH]; intros merged; simpl.
  - by destruct (relay_loop merged last) as [[??]?].
  - rewrite IH. by destruct (relay_loop _ last) as [[??]?].
Qed.

(** C1, as the code has it: the relay yields one string per chunk, in
    which every line of the chunk is a [data: ] line (a blank line
    carrying a single space, never nothing), the lines are separated by
    one newline and the record is closed by a blank line; the chunk
    [line1\n\nline2] gives the single record
    [data: line1\ndata:  \ndata: line2\n\n]. *)
Theorem relay_frames_one_event_per_chunk (chunks : list string) (chunk line : string) :
  response_stream_event (yields chunks StopAsyncIteration)
    = (sse_event <$> chunks, Returned)
  ∧ split_nl (sse_event chunk)
    = (data_line <$> split_nl chunk) ++ [EmptyString; EmptyString]
  ∧ (∃ payload, data_line line = "data: " +:+ payload
       ∧ payload ≠ EmptyString
       ∧ (payload = line ∨ (line = EmptyString ∧ payload = " ")))
  ∧ response_stream_event (yields [line1_line2] StopAsyncIteration)
    = (["data: line1" +:+ nl +:+ "data:  " +:+ nl +:+ "data: line2" +:+ nl +:+ nl],
       Returned).
Proof.
  split_and!.
  - unfold response_stream_event. rewrite relay_loop_yields. simpl.
    by rewrite app_nil_r.
  - apply split_nl_sse_event.
  - unfold data_line. case_decide as Hline.
    + exists " ". split_and!; [done|done|]. by right.
    + exists line. split_and!; [done|done|]. by left.
  - reflexivity.
Qed.

(** C1 as stated fails: the chunk [line1\n\nline2] does not give three
    framed events. *)
Lemma relay_three_events_refuted :
  fst (response_stream_event (yields [line1_line2] StopAsyncIteration))
  ≠ ["data: line1" +:+ nl +:+ nl; "data:  " +:+ nl +:+ nl; "data: line2" +:+ nl +:+ nl].
Proof. vm_compute. discriminate. Qed.

(** The relay lets through what does not derive from [Exception]. *)
Lemma relay_propagates_base_exception chunks :
  response_stream_event (yields chunks (Raising BaseExceptionOnly))
  = (sse_event <$> chunks, Propagated BaseExceptionOnly).
Proof.
  unfold response_stream_event. rewrite relay_loop_yields. simpl.
  by rewrite app_nil_r.
Qed.



End relay_facts.

(** * Properties of the worker selector *)

Section selector_facts.
Import UIDManager.

Lemma insert_index_Permutation I i sorted :
  insert_index I i sorted ≡ₚ i :: sorted.
Proof.
  induction sorted as [|j rest IH]; simpl; [done|].
  case_decide; [done|]. rewrite IH. apply Permutation_swap.
Qed.

Lemma argsort_Permutation I : argsort I ≡ₚ seq 0 (length I).
Proof.
  unfold argsort. induction (seq 0 (length I)) as [|i l IH]; simpl; [done|].
  by rewrite insert_index_Permutation, IH.
Qed.

Lemma NoDup_argsort I : NoDup (argsort I).
Proof. rewrite argsort_Permutation. apply NoDup_seq. Qed.

Lemma NoDup_top_of I k : NoDup (top_of I k).
Proof.
  unfold top_of. eapply sublist_NoDup; [|apply sublist_take].
  rewrite reverse_Permutation. apply NoDup_argsort.
Qed.

Lemma resync_uids available s :
  available ≠ [] →
  uids (resync available s)
  = if decide (filter (λ uid, uid ∈ available) (uids s) = [])
    then filter (λ uid, uid ∈ available) (top_of (metagraph_I s) (max_miners_to_use s))
    else filter (λ uid, uid ∈ available) (uids s).
Proof.
  intros Hne. unfold resync.
  rewrite decide_False by (by destruct available).
  cbn [uids]. destruct (uids s) as [|uid rest] eqn:Huids.
  - rewrite filter_nil. repeat case_decide; done.
  - destruct (filter _ (uid :: rest)) as [|x l] eqn:Hf;
      repeat case_decide; simplify_eq/=; done.
Qed.

Lemma resync_nil s : resync [] s = s.
Proof. done. Qed.

Lemma resync_available available s :
  available ≠ [] → available_uids (resync available s) = available.
Proof.
  intros Hne. unfold resync. by rewrite decide_False by (by destruct available).
Qed.

Lemma resync_ok available s : draw_list_ok s → draw_list_ok (resync available s).
Proof.
  intros [Hnodup Hsub]. destruct available as [|a available]; [done|].
  split.
  - rewrite resync_uids by done. case_decide.
    + apply NoDup_filter, NoDup_top_of.
    + by apply NoDup_filter.
  - rewrite resync_uids, resync_available by done.
    case_decide; intros uid [Huid _]%list_elem_of_filter; done.
Qed.

Lemma random_choice_elem r seq :
  seq ≠ [] → ∃ x, random_choice r seq = Ok x ∧ x ∈ seq.
Proof.
  intros Hne. unfold random_choice.
  destruct (lookup_lt_is_Some_2 seq (r mod length seq)) as [x Hx].
  { apply Nat.mod_upper_bound. by destruct seq. }
  rewrite Hx. eauto using list_elem_of_lookup_2.
Qed.

Lemma random_choice_nil r : random_choice r [] = Raise IndexError.
Proof. unfold random_choice. by rewrite lookup_nil. Qed.

Lemma list_remove_elem x l :
  x ∈ l →
  ∃ l', list_remove x l = Ok l' ∧ l ≡ₚ x :: l' ∧ l' `sublist_of` l.
Proof.
  induction l as [|y l IH]; [by intros ?%elem_of_nil|].
  intros Hx. simpl. case_decide as Hy.
  - subst. exists l. split_and!; [done|done|by apply sublist_cons].
  - apply elem_of_cons in Hx as [->|Hx]; [done|].
    destruct (IH Hx) as (l' & -> & Hperm & Hsub). exists (y :: l').
    split_and!; [done| |by apply sublist_skip].
    rewrite Hperm. apply Permutation_swap.
Qed.

Lemma get_miner_uid_nonempty r s :
  uids s ≠ [] →
  ∃ uid uids',
    get_miner_uid r s
      = Ok (uid, {| metagraph_I := metagraph_I s;
                    max_miners_to_use := max_miners_to_use s;
                    uids := uids';
                    available_uids := available_uids s;
                    top_uids := top_uids s |})
    ∧ uid ∈ uids s ∧ uids s ≡ₚ uid :: uids' ∧ uids' `sublist_of` uids s.
Proof.
  intros Hne. unfold get_miner_uid.
  rewrite decide_False by (by destruct (uids s)).
  destruct (random_choice_elem r _ Hne) as (uid & -> & Huid).
  destruct (list_remove_elem _ _ Huid) as (uids' & Hrem & Hperm & Hsub).
  exists uid, uids'. simpl. by rewrite Hrem.
Qed.

Lemma get_miner_uid_ok r s uid s' :
  draw_list_ok s → get_miner_uid r s = Ok (uid, s') → draw_list_ok s'.
Proof.
  intros Hok Hget.
  assert (draw_list_ok (after_failed_draw s)) as [Hnodup Hsub].
  { unfold after_failed_draw. case_decide; [by apply resync_ok|done]. }
  unfold get_miner_uid in Hget. fold (after_failed_draw s) in Hget.
  set (s1 := after_failed_draw s) in *.
  destruct (random_choice r (uids s1)) as [uid'|e] eqn:Hchoice; simpl in Hget; [|done].
  assert (uid' ∈ uids s1) as Huid'.
  { unfold random_choice in Hchoice.
    destruct (uids s1 !! _) eqn:Hl; simplify_eq. by eapply list_elem_of_lookup_2. }
  destruct (list_remove_elem _ _ Huid') as (uids' & Hrem & Hperm & Hsubl).
  rewrite Hrem in Hget. simpl in Hget. injection Hget as <- <-.
  split; simpl.
  - by eapply sublist_NoDup.
  - intros y Hy. apply Hsub. by eapply elem_of_sublist.
Qed.

Lemma reachable_ok s : reachable s → draw_list_ok s.
Proof.
  induction 1 as [I|s s' _ IH Hstep].
  - split; [apply NoDup_nil_2|by intros ? ?%elem_of_nil].
  - destruct Hstep as [available s|r s uid s' Hget|r s e Hget|I s].
    + by apply resync_ok.
    + by eapply get_miner_uid_ok.
    + unfold after_failed_draw. case_decide; [by apply resync_ok|done].
    + done.
Qed.

Lemma draws_distinct rs s :
  NoDup (uids s) → length rs ≤ length (uids s) →
  ∃ ids s', draws rs s = Ok (ids, s')
    ∧ NoDup ids ∧ uids s ≡ₚ ids ++ uids s'.
Proof.
  revert s. induction rs as [|r rs IH]; intros s Hnodup Hlen.
  - exists [], s. split_and!; [done|constructor|done].
  - simpl in Hlen.
    destruct (get_miner_uid_nonempty r s) as (uid & uids' & Hget & Huid & Hperm & Hsub).
    { destruct (uids s); simpl in *; [lia|done]. }
    simpl. rewrite Hget. simpl.
    set (s1 := State _ _ uids' _ _).
    assert (NoDup (uid :: uids')) as [Hfresh Hnodup']%NoDup_cons by by rewrite <-Hperm.
    destruct (IH s1) as (ids & s2 & -> & Hids & Hperm'); [done| |].
    { apply Permutation_length in Hperm. simpl in *. lia. }
    exists (uid :: ids), s2. simpl. split_and!; [done| |].
    + apply NoDup_cons. split; [|done].
      intros Hin. apply Hfresh. simpl in Hperm'. rewrite Hperm'.
      apply elem_of_app. by left.
    + rewrite Hperm. simpl in Hperm'. by rewrite Hperm'.
Qed.

(** C3: on an object built by [__init__] and used in any way since, [N]
    consecutive draws with [N] at most the size of the draw list all
    return, and return pairwise distinct worker ids, all taken from the
    draw list as it was. *)
Theorem draws_pairwise_distinct (s : state) (rs : list nat) :
  reachable s → length rs ≤ length (uids s) →
  ∃ ids s', draws rs s = Ok (ids, s')
    ∧ length ids = length rs ∧ NoDup ids ∧ ids ⊆ uids s.
Proof.
  intros [Hnodup _]%reachable_ok Hlen.
  destruct (draws_distinct rs s Hnodup Hlen) as (ids & s' & Hdraws & Hids & Hperm).
  exists ids, s'. split_and!; [done| |done|].
  - clear Hperm Hids Hnodup Hlen. revert s ids s' Hdraws.
    induction rs as [|r rs IH]; intros s ids s' Hdraws; simpl in Hdraws.
    + by simplify_eq.
    + destruct (get_miner_uid r s) as [[uid s1]|]; simpl in Hdraws; [|done].
      destruct (draws rs s1) as [[ids' s2]|] eqn:Hrest; simpl in Hdraws; [|done].
      simplify_eq. simpl. f_equal. by eapply IH.
  - intros uid Huid. rewrite Hperm. apply elem_of_app. by left.
Qed.

Lemma reachable_five_workers : reachable five_workers.
Proof. eapply reachable_step; [apply reachable_init|apply step_resync]. Defined.

Lemma draws_pairwise_distinct_witness :
  reachable five_workers
  ∧ length [7; 3; 2] ≤ length (uids five_workers)
  ∧ ∃ ids s', draws [7; 3; 2] five_workers = Ok (ids, s')
      ∧ length ids = length [7; 3; 2] ∧ NoDup ids ∧ ids ⊆ uids five_workers.
Proof.
  assert (length [7; 3; 2] ≤ length (uids five_workers)) as Hlen
    by (vm_compute; lia).
  split_and!; [apply reachable_five_workers|exact Hlen|].
  exact (draws_pairwise_distinct five_workers [7; 3; 2] reachable_five_workers Hlen).
Defined.

Lemma get_miner_uid_refill r s :
  uids s = [] → uids (resync (available_uids s) s) ≠ [] →
  get_miner_uid r s = get_miner_uid r (resync (available_uids s) s).
Proof.
  intros Hempty Hne. unfold get_miner_uid.
  rewrite (decide_True (P := length (uids s) = 0)) by (by rewrite Hempty).
  rewrite (decide_False (P := length (uids (resync _ s)) = 0)); [done|].
  by destruct (uids (resync _ s)).
Qed.

Lemma resync_uids_refill s :
  uids s = [] → available_uids s ≠ [] →
  uids (resync (available_uids s) s)
  = filter (λ uid, uid ∈ available_uids s)
      (top_of (metagraph_I s) (max_miners_to_use s)).
Proof.
  intros Hempty Hne. rewrite resync_uids by done. rewrite Hempty, filter_nil.
  by rewrite decide_True.
Qed.

(** A draw on an empty draw list, read on [top_of]: it returns when an
    available uid is in it and raises [IndexError] when none is. *)
Lemma draw_on_empty_top_of (s : state) (r : nat) :
  uids s = [] →
  ((∃ uid, uid ∈ available_uids s
           ∧ uid ∈ top_of (metagraph_I s) (max_miners_to_use s)) →
   ∃ uid s', get_miner_uid r s = Ok (uid, s')
     ∧ uid ∈ available_uids s
     ∧ uid ∈ top_of (metagraph_I s) (max_miners_to_use s)
     ∧ ∀ x, x ∈ uids s' ↔
            x ≠ uid ∧ x ∈ available_uids s
            ∧ x ∈ top_of (metagraph_I s) (max_miners_to_use s))
  ∧ ((∀ uid, uid ∈ available_uids s →
             uid ∉ top_of (metagraph_I s) (max_miners_to_use s)) →
     get_miner_uid r s = Raise IndexError).
Proof.
  intros Hempty. split.
  - intros (uid0 & Havail & Htop).
    assert (available_uids s ≠ []) as Hne by (by destruct (available_uids s); [apply elem_of_nil in Havail|]).
    pose proof (resync_uids_refill s Hempty Hne) as Hrefill.
    assert (uids (resync (available_uids s) s) ≠ []) as Hne'.
    { rewrite Hrefill. intros Hnil.
      assert (uid0 ∈ filter (λ uid, uid ∈ available_uids s)
                (top_of (metagraph_I s) (max_miners_to_use s))) as Hin
        by (by apply list_elem_of_filter).
      rewrite Hnil in Hin. by apply elem_of_nil in Hin. }
    rewrite get_miner_uid_refill by done.
    destruct (get_miner_uid_nonempty r _ Hne') as (uid & uids' & -> & Huid & Hperm & _).
    rewrite Hrefill in Huid, Hperm.
    apply list_elem_of_filter in Huid as [Huid_avail Huid_top].
    eexists uid, _. split_and!; [done|done|done|]. simpl.
    assert (NoDup (uid :: uids')) as [Hfresh Hnodup]%NoDup_cons.
    { rewrite <-Hperm. apply NoDup_filter, NoDup_top_of. }
    intros x. split.
    + intros Hx. assert (x ∈ uid :: uids') as Hx' by (by right).
      rewrite <-Hperm in Hx'. apply list_elem_of_filter in Hx' as [??].
      split_and!; [|done|done]. by intros ->.
    + intros (Hneq & Hx_avail & Hx_top).
      assert (x ∈ uid :: uids') as [->|Hx]%elem_of_cons; [|done|done].
      rewrite <-Hperm. by apply list_elem_of_filter.
  - intros Hnone. unfold get_miner_uid.
    rewrite (decide_True (P := length (uids s) = 0)) by (by rewrite Hempty).
    destruct (decide (available_uids s = [])) as [Hnil|Hne].
    + rewrite Hnil, resync_nil, Hempty. by rewrite random_choice_nil.
    + rewrite resync_uids_refill by done.
      destruct (filter _ _) as [|x l] eqn:Hf; [by rewrite random_choice_nil|].
      assert (x ∈ filter (λ uid, uid ∈ available_uids s)
                (top_of (metagraph_I s) (max_miners_to_use s))) as Hx.
      { rewrite Hf. by left. }
      apply list_elem_of_filter in Hx as [Hx Hx']. by apply Hnone in Hx.
Qed.

Lemma reachable_only_worst_available : reachable only_worst_available.
Proof. eapply reachable_step; [apply reachable_init|apply step_resync]. Qed.

(** C2 as stated fails: with 101 workers ranked in the metagraph and only
    the worst-ranked one available, the draw list is empty, the last-known
    available set is not, and the draw raises. *)
Lemma draw_with_known_workers_refuted :
  ¬ (∀ (s : state) (r : nat),
       reachable s → uids s = [] → available_uids s ≠ [] →
       ∃ uid s', get_miner_uid r s = Ok (uid, s')).
Proof.
  intros Hclaim.
  destruct (Hclaim only_worst_available 0) as (uid & s' & Hget).
  - apply reachable_only_worst_available.
  - by vm_compute.
  - by vm_compute.
  - vm_compute in Hget. discriminate.
Qed.

(** C4 on the code: uid 0 is drawn into the list while it ranks first;
    the ranks change so that it ranks last of 101; the next [resync]
    keeps it in the draw list although it is neither in the new
    [top_uids] nor among the 100 best available workers. *)
Theorem stale_uid_survives_resync :
  reachable after_rank_change
  ∧ max_miners_to_use after_rank_change = 100
  ∧ (0 ∈ uids after_rank_change)
  ∧ (0 ∈ available_uids after_rank_change)
  ∧ (0 ∉ top_uids after_rank_change)
  ∧ (0 ∉ CandidatePool_spec (metagraph_I after_rank_change)
           (max_miners_to_use after_rank_change)
           (available_uids after_rank_change)).
Proof.
  split_and!.
  - eapply reachable_step; [|apply step_resync].
    eapply reachable_step; [|apply step_metagraph].
    eapply reachable_step; [apply reachable_init|apply step_resync].
  - reflexivity.
  - apply (bool_decide_unpack _). by vm_compute.
  - apply (bool_decide_unpack _). by vm_compute.
  - apply (bool_decide_unpack _). by vm_compute.
  - apply (bool_decide_unpack _). by vm_compute.
Qed.

End selector_facts.

(** * Properties of the result merger *)

Section merger_facts.
Import ResultMerger.

Lemma merge_tool_spec s tool aggregated current :
  aggregated !! tool = Some current →
  merge_tool s tool aggregated
  = (v ← merge_value s tool current; Ok (<[tool := v]> aggregated)).
Proof.
  intros Hcur. unfold merge_tool, merge_value.
  destruct (getattr s (field_mapping !! tool)) as [result|e]; simpl; [|done].
  destruct (truthy result) eqn:Htruthy; simpl; [|by rewrite insert_id].
  destruct result as [| | | |items|entries]; simpl; try done.
  unfold getitem. rewrite Hcur. simpl.
  destruct current; simpl; rewrite ?lookup_insert_eq, ?Hcur; simpl; try done.
  by rewrite insert_insert_eq.
Qed.

Lemma merge_tool_other s t tool aggregated aggregated' :
  merge_tool s t aggregated = Ok aggregated' → t ≠ tool →
  aggregated' !! tool = aggregated !! tool.
Proof.
  intros Hmerge Hne. unfold merge_tool in Hmerge.
  destruct (getattr s (field_mapping !! t)) as [result|e]; simpl in Hmerge; [|done].
  destruct (truthy result); [|by simplify_eq].
  destruct result as [| | | |items|entries]; simplify_eq/=;
    rewrite ?lookup_insert_ne by done; try done.
  destruct (getitem aggregated t) as [current|]; simpl in Hmerge; [|done].
  destruct (getitem _ t) as [target|]; simpl in Hmerge; [|done].
  destruct (extend target items); simplify_eq/=.
  rewrite lookup_insert_ne by done.
  destruct current; rewrite ?lookup_insert_ne by done; done.
Qed.

Lemma merge_tool_lookup s tool aggregated aggregated' :
  merge_tool s tool aggregated = Ok aggregated' →
  is_Some (aggregated !! tool) →
  ∃ current v, aggregated !! tool = Some current
    ∧ merge_value s tool current = Ok v
    ∧ aggregated' = <[tool := v]> aggregated.
Proof.
  intros Hmerge [current Hcur]. rewrite (merge_tool_spec _ _ _ current) in Hmerge by done.
  destruct (merge_value s tool current) as [v|] eqn:Hv; simplify_eq/=.
  by exists current, v.
Qed.

Lemma occurrences_cons_eq tool tools :
  occurrences tool (tool :: tools) = S (occurrences tool tools).
Proof. unfold occurrences. by rewrite filter_cons_True. Qed.

Lemma occurrences_cons_ne t tool tools :
  t ≠ tool → occurrences tool (t :: tools) = occurrences tool tools.
Proof. intros. unfold occurrences. by rewrite filter_cons_False. Qed.

Lemma occurrences_pos tool tools : tool ∈ tools → 0 < occurrences tool tools.
Proof.
  induction tools as [|t tools IH]; [by intros ?%elem_of_nil|].
  intros Hin. destruct (decide (t = tool)) as [->|Hne].
  - rewrite occurrences_cons_eq. lia.
  - rewrite occurrences_cons_ne by done.
    apply elem_of_cons in Hin as [->|Hin]; [done|by apply IH].
Qed.

Lemma occurrences_not_elem tool tools : tool ∉ tools → occurrences tool tools = 0.
Proof.
  intros Hnotin. destruct (decide (0 < occurrences tool tools)) as [Hpos|]; [|lia].
  unfold occurrences in *. destruct (filter _ tools) as [|x l] eqn:Hf; [done|].
  assert (x ∈ filter (λ t, t = tool) tools) as [-> ?]%list_elem_of_filter
    by (rewrite Hf; by left).
  done.
Qed.

Lemma occurrences_NoDup tool tools :
  NoDup tools → tool ∈ tools → occurrences tool tools = 1.
Proof.
  induction tools as [|t tools IH]; [by intros _ ?%elem_of_nil|].
  intros [Hnotin Hnodup]%NoDup_cons [->|Hin]%elem_of_cons.
  - by rewrite occurrences_cons_eq, occurrences_not_elem.
  - rewrite occurrences_cons_ne by (by intros ->). by apply IH.
Qed.

(** One pass over the tools visits [tool] once per occurrence and leaves
    the other keys of the visit alone. *)
Lemma merge_synapse_lookup s tools tool aggregated aggregated' current :
  merge_synapse s tools aggregated = Ok aggregated' →
  aggregated !! tool = Some current →
  ∃ v, iter_merge (occurrences tool tools) s tool current = Ok v
    ∧ aggregated' !! tool = Some v.
Proof.
  revert aggregated current.
  induction tools as [|t tools IH]; intros aggregated current Hmerge Hcur.
  - simpl in Hmerge. simplify_eq. by exists current.
  - simpl in Hmerge.
    destruct (merge_tool s t aggregated) as [agg1|] eqn:Hstep; simpl in Hmerge; [|done].
    destruct (decide (t = tool)) as [->|Hne].
    + rewrite occurrences_cons_eq. simpl.
      destruct (merge_tool_lookup _ _ _ _ Hstep) as (cur & v1 & Hcur' & Hv1 & ->); [by eexists|].
      simplify_eq. rewrite Hv1. simpl.
      apply (IH _ v1 Hmerge). by rewrite lookup_insert_eq.
    + rewrite occurrences_cons_ne by done.
      apply (IH _ current Hmerge).
      by rewrite (merge_tool_other _ _ _ _ _ Hstep Hne).
Qed.

Lemma merge_responses_lookup responses tools tool aggregated aggregated' current :
  merge_responses responses tools aggregated = Ok aggregated' →
  aggregated !! tool = Some current →
  ∃ v, merge_values (occurrences tool tools) responses tool current = Ok v
    ∧ aggregated' !! tool = Some v.
Proof.
  revert aggregated current.
  induction responses as [|s responses IH]; intros aggregated current Hmerge Hcur.
  - simpl in Hmerge. simplify_eq. by exists current.
  - simpl in Hmerge.
    destruct (merge_synapse s tools aggregated) as [agg1|] eqn:Hpass;
      simpl in Hmerge; [|done].
    destruct (merge_synapse_lookup _ _ _ _ _ _ Hpass Hcur) as (v1 & Hv1 & Hagg1).
    simpl. rewrite Hv1. simpl. by apply (IH agg1).
Qed.

Lemma merge_tool_dom s tool aggregated aggregated' :
  tool ∈ dom aggregated → merge_tool s tool aggregated = Ok aggregated' →
  dom aggregated' = dom aggregated.
Proof.
  intros Hin Hmerge.
  destruct (merge_tool_lookup _ _ _ _ Hmerge) as (cur & v & _ & _ & ->).
  { by apply elem_of_dom. }
  rewrite dom_insert_L. apply set_eq. intros x.
  rewrite elem_of_union, elem_of_singleton. split; [by intros [->|?]|by right].
Qed.

Lemma merge_synapse_dom s tools aggregated aggregated' :
  (∀ t, t ∈ tools → t ∈ dom aggregated) →
  merge_synapse s tools aggregated = Ok aggregated' →
  dom aggregated' = dom aggregated.
Proof.
  revert aggregated. induction tools as [|t tools IH]; intros aggregated Hsub Hmerge.
  - simpl in Hmerge. by simplify_eq.
  - simpl in Hmerge.
    destruct (merge_tool s t aggregated) as [agg1|] eqn:Hstep; simpl in Hmerge; [|done].
    assert (dom agg1 = dom aggregated) as Hdom.
    { eapply merge_tool_dom; [|done]. apply Hsub. by left. }
    rewrite <-Hdom. apply IH; [|done].
    intros t' Hin. rewrite Hdom. apply Hsub. by right.
Qed.

Lemma merge_responses_dom responses tools aggregated aggregated' :
  (∀ t, t ∈ tools → t ∈ dom aggregated) →
  merge_responses responses tools aggregated = Ok aggregated' →
  dom aggregated' = dom aggregated.
Proof.
  revert aggregated.
  induction responses as [|s responses IH]; intros aggregated Hsub Hmerge.
  - simpl in Hmerge. by simplify_eq.
  - simpl in Hmerge.
    destruct (merge_synapse s tools aggregated) as [agg1|] eqn:Hpass;
      simpl in Hmerge; [|done].
    assert (dom agg1 = dom aggregated) as Hdom by by eapply merge_synapse_dom.
    rewrite <-Hdom. apply IH; [|done]. intros t' Hin. rewrite Hdom. by apply Hsub.
Qed.

Lemma initial_lookup_acc tools (acc : gmap string value) t :
  foldl (λ aggregated tool, <[tool := VNone]> aggregated) acc tools !! t
  = if decide (t ∈ tools) then Some VNone else acc !! t.
Proof.
  revert acc. induction tools as [|t' tools IH]; intros acc; cbn [foldl].
  - rewrite decide_False; [done|]. apply not_elem_of_nil.
  - rewrite IH. destruct (decide (t ∈ tools)) as [Hin|Hnotin].
    + rewrite decide_True; [done|]. by right.
    + destruct (decide (t' = t)) as [->|Hne].
      * rewrite decide_True by (by left). by rewrite lookup_insert_eq.
      * rewrite decide_False by (by intros [->|?]%elem_of_cons).
        by rewrite lookup_insert_ne.
Qed.

Lemma initial_lookup tools t :
  initial tools !! t = if decide (t ∈ tools) then Some VNone else None.
Proof. unfold initial. by rewrite initial_lookup_acc, lookup_empty. Qed.

Lemma dom_initial tools : dom (initial tools) = list_to_set tools.
Proof.
  apply set_eq. intros t. rewrite elem_of_dom, initial_lookup, elem_of_list_to_set.
  case_decide; split; try done; try (by eexists); by intros [??].
Qed.

Lemma default_of_idemp v : default_of (default_of v) = default_of v.
Proof. by destruct v. Qed.

Lemma fill_defaults_lookup tools aggregated :
  (∀ t, t ∈ tools → t ∈ dom aggregated) →
  ∃ aggregated', fill_defaults tools aggregated = Ok aggregated'
    ∧ ∀ t, aggregated' !! t
           = if decide (t ∈ tools) then default_of <$> aggregated !! t
             else aggregated !! t.
Proof.
  revert aggregated. induction tools as [|t' tools IH]; intros aggregated Hsub.
  - exists aggregated. split; [done|]. intros t.
    rewrite decide_False; [done|]. apply not_elem_of_nil.
  - assert (is_Some (aggregated !! t')) as [current Hcur].
    { apply elem_of_dom, Hsub. by left. }
    simpl. unfold getitem. rewrite Hcur. simpl.
    set (agg1 := match current with VNone => _ | _ => aggregated end).
    assert (∀ t, agg1 !! t
                 = if decide (t = t') then Some (default_of current)
                   else aggregated !! t) as Hagg1.
    { intros t. unfold agg1. destruct (decide (t = t')) as [->|Hne].
      - destruct current; simpl; by rewrite ?lookup_insert_eq.
      - destruct current; by rewrite ?lookup_insert_ne. }
    destruct (IH agg1) as (agg' & Hfill & Hlookup).
    { intros t Hin. apply elem_of_dom. rewrite Hagg1. case_decide; [done|].
      apply elem_of_dom, Hsub. by right. }
    exists agg'. split; [done|]. intros t. rewrite Hlookup, Hagg1.
    destruct (decide (t = t')) as [->|Hne].
    + rewrite (decide_True (P := t' ∈ t' :: tools)) by (by left).
      rewrite Hcur. simpl. case_decide; simpl; by rewrite ?default_of_idemp.
    + destruct (decide (t ∈ tools)) as [Hin|Hnotin].
      * rewrite decide_True; [done|]. by right.
      * rewrite decide_False; [done|]. by intros [->|?]%elem_of_cons.
Qed.

(** The merge, read one tool at a time. *)
Lemma aggregate_lookup responses tools m tool :
  aggregate_search_results responses tools = Ok m → tool ∈ tools →
  ∃ v, merge_values (occurrences tool tools) responses tool VNone = Ok v
    ∧ m !! tool = Some (default_of v).
Proof.
  intros Hagg Hin. unfold aggregate_search_results in Hagg.
  destruct (merge_responses responses tools (initial tools)) as [agg|] eqn:Hmerge;
    simpl in Hagg; [|done].
  destruct (merge_responses_lookup _ _ tool _ _ VNone Hmerge) as (v & Hv & Hlook).
  { rewrite initial_lookup. by rewrite decide_True. }
  exists v. split; [done|].
  destruct (fill_defaults_lookup tools agg) as (m' & Hfill & Hm').
  { intros t Ht. erewrite merge_responses_dom; [|by intros; rewrite dom_initial; apply elem_of_list_to_set|done].
    rewrite dom_initial. by apply elem_of_list_to_set. }
  rewrite Hfill in Hagg. simplify_eq.
  rewrite Hm', decide_True by done. by rewrite Hlook.
Qed.

Lemma aggregate_dom responses tools m :
  aggregate_search_results responses tools = Ok m → dom m = list_to_set tools.
Proof.
  intros Hagg. unfold aggregate_search_results in Hagg.
  destruct (merge_responses responses tools (initial tools)) as [agg|] eqn:Hmerge;
    simpl in Hagg; [|done].
  assert (dom agg = list_to_set tools) as Hdom.
  { rewrite <-dom_initial. eapply merge_responses_dom; [|done].
    intros t Ht. rewrite dom_initial. by apply elem_of_list_to_set. }
  destruct (fill_defaults_lookup tools agg) as (m' & Hfill & Hm').
  { intros t Ht. rewrite Hdom. by apply elem_of_list_to_set. }
  rewrite Hfill in Hagg. simplify_eq.
  rewrite <-Hdom. apply set_eq. intros t. rewrite !elem_of_dom, Hm'.
  case_decide; [|done]. by rewrite fmap_is_Some.
Qed.

Lemma getattr_field_value s tool v :
  field_value s tool = Some v → getattr s (field_mapping !! tool) = Ok v.
Proof.
  unfold field_value, getattr. destruct (field_mapping !! tool) as [field|]; [|done].
  simpl. by intros ->.
Qed.

Lemma getattr_unknown s tool :
  field_mapping !! tool = None → getattr s (field_mapping !! tool) = Raise TypeError.
Proof. by intros ->. Qed.

Lemma merge_value_uniform responses s tool current :
  s ∈ responses → is_Some (field_value s tool) →
  sequences_only responses tool ∨ no_sequences responses tool →
  extendable responses tool current →
  ∃ v, merge_value s tool current = Ok v ∧ extendable responses tool v.
Proof.
  intros Hs [result Hresult] Hshape Hcur. unfold merge_value.
  rewrite (getattr_field_value _ _ _ Hresult). simpl.
  destruct (truthy result) eqn:Htruthy; [|by exists current].
  destruct Hshape as [Hseq|Hnoseq].
  - pose proof (Hseq s result Hs Hresult Htruthy) as Hlist.
    destruct result as [| | | |items|entries]; try done.
    destruct Hcur as [Hnoseq|[->|Hcur]].
    + by pose proof (Hnoseq s _ Hs Hresult Htruthy).
    + eexists. split; [done|]. right. by right.
    + destruct current; try done. eexists. split; [done|]. right. by right.
  - pose proof (Hnoseq s result Hs Hresult Htruthy) as Hlist.
    destruct result as [| | | |items|entries]; try done;
      (eexists; split; [done|by left]).
Qed.

Lemma merge_synapse_uniform responses requested s tools aggregated :
  s ∈ responses → uniform responses requested →
  (∀ t, t ∈ tools → t ∈ requested) →
  all_extendable responses requested aggregated →
  ∃ aggregated', merge_synapse s tools aggregated = Ok aggregated'
    ∧ all_extendable responses requested aggregated'.
Proof.
  intros Hs Huni. revert aggregated.
  induction tools as [|t tools IH]; intros aggregated Hsub Hinv.
  - by exists aggregated.
  - assert (t ∈ requested) as Ht by (apply Hsub; by left).
    destruct (Hinv t Ht) as (current & Hcur & Hext).
    destruct (Huni t Ht) as [Hfield Hshape].
    destruct (merge_value_uniform responses s t current Hs (Hfield s Hs) Hshape Hext)
      as (v & Hv & Hext').
    simpl. rewrite (merge_tool_spec _ _ _ current Hcur), Hv. simpl.
    apply IH.
    + intros t' Hin. apply Hsub. by right.
    + intros tool Htool. destruct (decide (t = tool)) as [->|Hne].
      * exists v. by rewrite lookup_insert_eq.
      * rewrite lookup_insert_ne by done. by apply Hinv.
Qed.

Lemma merge_responses_uniform all responses tools aggregated :
  (∀ s, s ∈ responses → s ∈ all) → uniform all tools →
  all_extendable all tools aggregated →
  ∃ aggregated', merge_responses responses tools aggregated = Ok aggregated'
    ∧ all_extendable all tools aggregated'.
Proof.
  intros Hsub Huni. revert aggregated Hsub.
  induction responses as [|s responses IH]; intros aggregated Hsub Hinv.
  - by exists aggregated.
  - destruct (merge_synapse_uniform all tools s tools aggregated)
      as (agg1 & Hpass & Hinv1); [apply Hsub; by left|done|done|done|].
    simpl. rewrite Hpass. simpl. apply IH; [|done].
    intros s' Hin. apply Hsub. by right.
Qed.

(** The merge returns on uniform input. *)
Lemma aggregate_returns_uniform responses tools :
  uniform responses tools → ∃ m, aggregate_search_results responses tools = Ok m.
Proof.
  intros Huni. unfold aggregate_search_results.
  destruct (merge_responses_uniform responses responses tools (initial tools))
    as (agg & Hmerge & _); [done|done| |].
  { intros tool Htool. exists VNone. rewrite initial_lookup, decide_True by done.
    split; [done|]. right. by left. }
  rewrite Hmerge. simpl. destruct (fill_defaults_lookup tools agg) as (m & Hfill & _).
  { intros t Ht. erewrite merge_responses_dom; [| |done].
    - rewrite dom_initial. by apply elem_of_list_to_set.
    - intros t' Ht'. rewrite dom_initial. by apply elem_of_list_to_set. }
  by exists m.
Qed.

Lemma uniform_nil tools : uniform [] tools.
Proof.
  intros tool _. split; [by intros s ?%elem_of_nil|].
  left. by intros s v ?%elem_of_nil.
Qed.

Lemma merge_values_app n l1 l2 tool current :
  merge_values n (l1 ++ l2) tool current
  = (v ← merge_values n l1 tool current; merge_values n l2 tool v).
Proof.
  revert current. induction l1 as [|s l1 IH]; intros current; [done|].
  simpl. destruct (iter_merge n s tool current) as [v|]; simpl; [|done]. apply IH.
Qed.

Lemma merge_value_falsy s tool current v :
  field_value s tool = Some v → truthy v = false →
  merge_value s tool current = Ok current.
Proof.
  intros Hv Hfalsy. unfold merge_value.
  rewrite (getattr_field_value _ _ _ Hv). simpl. by rewrite Hfalsy.
Qed.

Lemma iter_merge_falsy n s tool current v :
  field_value s tool = Some v → truthy v = false →
  iter_merge n s tool current = Ok current.
Proof.
  intros Hv Hfalsy. induction n as [|n IH]; [done|].
  simpl. by rewrite (merge_value_falsy _ _ _ v).
Qed.

Lemma iter_merge_returns_value n s tool current v :
  iter_merge n s tool current = Ok v → 0 < n → is_Some (field_value s tool).
Proof.
  intros Hiter Hn. destruct n as [|n]; [lia|]. simpl in Hiter.
  unfold merge_value, getattr, field_value in *.
  destruct (field_mapping !! tool) as [field|]; simpl in *; [|done].
  destruct (s !! field); simpl in *; [by eexists|done].
Qed.

Lemma merge_values_no_data n responses tool v :
  no_data responses tool →
  merge_values n responses tool VNone = Ok v → v = VNone.
Proof.
  induction responses as [|s responses IH]; intros Hnone Hmerge.
  - simpl in Hmerge. by simplify_eq.
  - simpl in Hmerge. destruct n as [|n].
    + simpl in Hmerge. apply IH; [|done].
      intros s' v' Hin. apply Hnone. by right.
    + destruct (iter_merge (S n) s tool VNone) as [v1|] eqn:Hiter;
        simpl in Hmerge; [|done].
      destruct (iter_merge_returns_value _ _ _ _ _ Hiter) as [x Hx]; [lia|].
      rewrite (iter_merge_falsy _ _ _ _ x) in Hiter; [|done|].
      * simplify_eq. apply IH; [|done]. intros s' v' Hin. apply Hnone. by right.
      * eapply Hnone; [by left|done].
Qed.

(** C5, as the code has it: whenever the merge returns, the keys of the
    result are exactly the requested tools, no tool is bound to [None],
    and a tool for which no response had data is bound to the empty map;
    and the merge does return when the input is uniform (every requested
    tool in the table, every response with the field, the data of a tool
    either always a sequence or never one). *)
Theorem merge_keys_and_defaults (responses : list synapse) (tools : list string) :
  (uniform responses tools →
   ∃ m, aggregate_search_results responses tools = Ok m)
  ∧ (∀ m, aggregate_search_results responses tools = Ok m →
       dom m = list_to_set tools
       ∧ (∀ tool, tool ∈ tools → ∃ v, m !! tool = Some v ∧ v ≠ VNone)
       ∧ (∀ tool, tool ∈ tools → no_data responses tool →
                  m !! tool = Some (VDict []))).
Proof.
  split; [apply aggregate_returns_uniform|].
  intros m Hagg. split_and!.
  - by eapply aggregate_dom.
  - intros tool Htool.
    destruct (aggregate_lookup _ _ _ _ Hagg Htool) as (v & _ & Hm).
    exists (default_of v). split; [done|]. by destruct v.
  - intros tool Htool Hnone.
    destruct (aggregate_lookup _ _ _ _ Hagg Htool) as (v & Hv & Hm).
    apply merge_values_no_data in Hv as ->; done.
Qed.

Lemma merge_value_sequence s tool prefix items :
  field_value s tool = Some (VList items) →
  merge_value s tool (accumulated prefix) = Ok (accumulated (prefix ++ items)).
Proof.
  intros Hitems. unfold merge_value.
  rewrite (getattr_field_value _ _ _ Hitems). simpl.
  destruct items as [|x items]; simpl.
  - by rewrite app_nil_r.
  - destruct prefix as [|y prefix]; simpl; [done|].
    by destruct (prefix ++ x :: items) eqn:Happ.
Qed.

Lemma merge_values_sequences responses tool prefix :
  (∀ s, s ∈ responses → ∃ items, field_value s tool = Some (VList items)) →
  merge_values 1 responses tool (accumulated prefix)
  = Ok (accumulated (prefix ++ concat (sequence_of tool <$> responses))).
Proof.
  revert prefix. induction responses as [|s responses IH]; intros prefix Hall.
  - simpl. by rewrite app_nil_r.
  - destruct (Hall s) as [items Hitems]; [by left|].
    simpl. rewrite (merge_value_sequence _ _ _ items Hitems). simpl.
    rewrite IH by (intros s' Hin; apply Hall; by right).
    unfold sequence_of at 2. rewrite Hitems. by rewrite app_assoc.
Qed.

(** C6, as the code has it: for a tool requested once whose values are
    sequences in every response, the merged value is the concatenation of
    these sequences in the order of the responses when one of them at
    least is not empty, and the empty map when all are empty. *)
Theorem merge_concatenates_sequences
    (responses : list synapse) (tools : list string) (tool : string) :
  NoDup tools → tool ∈ tools →
  (∀ s, s ∈ responses → ∃ items, field_value s tool = Some (VList items)) →
  (uniform responses tools →
   ∃ m, aggregate_search_results responses tools = Ok m)
  ∧ (∀ m, aggregate_search_results responses tools = Ok m →
       let all := concat (sequence_of tool <$> responses) in
       (all ≠ [] → m !! tool = Some (VList all))
       ∧ (all = [] → m !! tool = Some (VDict []))).
Proof.
  intros Hnodup Htool Hall. split; [apply aggregate_returns_uniform|].
  intros m Hagg.
  destruct (aggregate_lookup _ _ _ _ Hagg Htool) as (v & Hv & Hm).
  rewrite occurrences_NoDup in Hv by done.
  change VNone with (accumulated []) in Hv.
  rewrite merge_values_sequences in Hv by done. simpl in Hv. simplify_eq.
  simpl. rewrite Hm. split.
  - intros Hne. by destruct (concat _).
  - by intros ->.
Qed.

Lemma iter_merge_map n s tool current entries :
  0 < n → field_value s tool = Some (VDict entries) → entries ≠ [] →
  iter_merge n s tool current = Ok (VDict entries).
Proof.
  intros Hn Hentries Hne.
  assert (∀ c, merge_value s tool c = Ok (VDict entries)) as Hstep.
  { intros c. unfold merge_value. rewrite (getattr_field_value _ _ _ Hentries).
    simpl. by destruct entries. }
  destruct n as [|n]; [lia|]. clear Hn. revert current.
  induction n as [|n IH]; intros current; simpl.
  - by rewrite Hstep.
  - rewrite Hstep. simpl. apply (IH (VDict entries)).
Qed.

Lemma merge_values_falsy n responses tool current :
  (∀ s, s ∈ responses → ∃ v, field_value s tool = Some v ∧ truthy v = false) →
  merge_values n responses tool current = Ok current.
Proof.
  induction responses as [|s responses IH]; intros Hall; [done|].
  destruct (Hall s) as (v & Hv & Hfalsy); [by left|].
  simpl. rewrite (iter_merge_falsy _ _ _ _ v) by done. simpl.
  apply IH. intros s' Hin. apply Hall. by right.
Qed.

(** C7: for a requested tool, when a response holds a non-empty map and
    the responses after it hold empty maps, the merged value is that map,
    whatever came before; and the merge returns on uniform input. *)
Theorem merge_replaces_maps
    (responses before after : list synapse) (s : synapse)
    (tools : list string) (tool : string) (entries : list (string * value)) :
  tool ∈ tools →
  responses = before ++ s :: after →
  field_value s tool = Some (VDict entries) → entries ≠ [] →
  (∀ s', s' ∈ after → field_value s' tool = Some (VDict [])) →
  (uniform responses tools →
   ∃ m, aggregate_search_results responses tools = Ok m)
  ∧ (∀ m, aggregate_search_results responses tools = Ok m →
       m !! tool = Some (VDict entries)).
Proof.
  intros Htool -> Hentries Hne Hafter. split; [apply aggregate_returns_uniform|].
  intros m Hagg.
  destruct (aggregate_lookup _ _ _ _ Hagg Htool) as (v & Hv & Hm).
  rewrite merge_values_app in Hv.
  destruct (merge_values _ before tool VNone) as [v1|]; simpl in Hv; [|done].
  rewrite (iter_merge_map _ _ _ _ entries) in Hv
    by (done || by apply occurrences_pos).
  simpl in Hv. rewrite merge_values_falsy in Hv.
  - simplify_eq. by rewrite Hm.
  - intros s' Hin. exists (VDict []). split; [by apply Hafter|done].
Qed.

Lemma aggregate_x1_then_c :
  aggregate_search_results [response_x1; response_c] ["Google Search"]
  = Raise AttributeError.
Proof. vm_compute. reflexivity. Qed.

Lemma aggregate_empty_list :
  aggregate_search_results [response_empty_list] ["Google Search"]
  = Ok {[ "Google Search" := VDict [] ]}.
Proof. vm_compute. reflexivity. Qed.

Lemma aggregate_ab_then_c :
  aggregate_search_results [response_ab; response_c] ["Google Search"]
  = Ok {[ "Google Search" := VList [VStr "a"; VStr "b"; VStr "c"] ]}.
Proof. vm_compute. reflexivity. Qed.

Lemma aggregate_x1_then_y2 :
  aggregate_search_results [response_x1; response_y2] ["Google Search"]
  = Ok {[ "Google Search" := VDict [("y", VInt 2)] ]}.
Proof. vm_compute. reflexivity. Qed.

Lemma iter_merge_sequence_after_map n s tool entries items :
  0 < n → field_value s tool = Some (VList items) → items ≠ [] →
  iter_merge n s tool (VDict entries) = Raise AttributeError.
Proof.
  intros Hn Hitems Hne. destruct n as [|n]; [lia|]. simpl.
  unfold merge_value. rewrite (getattr_field_value _ _ _ Hitems). simpl.
  by destruct items.
Qed.

(** C9: when a response holds a non-empty map for a requested tool and
    the next response holds a non-empty sequence for it, the merge raises;
    on the responses [{x: 1}] then [[c]] for one tool the exception is the
    [AttributeError] of [extend] on a map. *)
Theorem merge_raises_on_sequence_after_map
    (responses before after : list synapse) (s1 s2 : synapse)
    (tools : list string) (tool : string)
    (entries : list (string * value)) (items : list value) :
  tool ∈ tools →
  responses = before ++ s1 :: s2 :: after →
  field_value s1 tool = Some (VDict entries) → entries ≠ [] →
  field_value s2 tool = Some (VList items) → items ≠ [] →
  raises (aggregate_search_results responses tools)
  ∧ aggregate_search_results [response_x1; response_c] ["Google Search"]
    = Raise AttributeError.
Proof.
  intros Htool -> Hentries Hne Hitems Hne'. split; [|apply aggregate_x1_then_c].
  destruct (aggregate_search_results _ tools) as [m|e] eqn:Hagg; [|by exists e].
  destruct (aggregate_lookup _ _ _ _ Hagg Htool) as (v & Hv & _).
  pose proof (occurrences_pos _ _ Htool) as Hpos.
  rewrite merge_values_app in Hv.
  destruct (merge_values _ before tool VNone) as [v1|]; simpl in Hv; [|done].
  rewrite (iter_merge_map _ _ _ _ entries) in Hv by done. simpl in Hv.
  by rewrite (iter_merge_sequence_after_map _ _ _ _ items) in Hv.
Qed.

(** C10: a requested tool outside the field-mapping table makes the merge
    raise as soon as there is one response (with [TypeError] when it is
    the first requested tool); without responses the merge returns and
    binds the tool to the empty map. *)
Theorem merge_raises_on_unknown_tool
    (responses : list synapse) (tools : list string) (tool : string) :
  tool ∈ tools → field_mapping !! tool = None →
  (responses ≠ [] → raises (aggregate_search_results responses tools))
  ∧ (∀ s rest more,
       aggregate_search_results (s :: rest) (tool :: more) = Raise TypeError)
  ∧ (∃ m, aggregate_search_results [] tools = Ok m
          ∧ m !! tool = Some (VDict [])).
Proof.
  intros Htool Hunknown. split_and!.
  - intros Hne.
    destruct (aggregate_search_results _ tools) as [m|e] eqn:Hagg; [|by exists e].
    destruct (aggregate_lookup _ _ _ _ Hagg Htool) as (v & Hv & _).
    pose proof (occurrences_pos _ _ Htool) as Hpos.
    destruct responses as [|s responses]; [done|].
    destruct (occurrences tool tools) as [|n]; [lia|].
    simpl in Hv. unfold merge_value in Hv.
    by rewrite getattr_unknown in Hv.
  - intros s rest more. unfold aggregate_search_results. simpl.
    unfold merge_tool. by rewrite getattr_unknown.
  - destruct (aggregate_returns_uniform [] tools) as [m Hm]; [apply uniform_nil|].
    exists m. split; [done|].
    destruct (aggregate_lookup _ _ _ _ Hm Htool) as (v & Hv & ->).
    simpl in Hv. by simplify_eq.
Qed.

(** C5 as stated fails: a map followed by a sequence for a known tool
    makes the merge raise, so no map is returned. *)
Lemma merge_total_refuted :
  ¬ (∀ (responses : list synapse) (tools : list string),
       ∃ m, aggregate_search_results responses tools = Ok m
            ∧ dom m = list_to_set tools).
Proof.
  intros Hclaim.
  destruct (Hclaim [response_x1; response_c] ["Google Search"]) as (m & Hm & _).
  rewrite aggregate_x1_then_c in Hm. discriminate.
Qed.

(** C6 as stated fails: one response with the empty sequence merges to
    the empty map, not to the empty concatenation. *)
Lemma merge_empty_sequences_refuted :
  ¬ (∀ m, aggregate_search_results [response_empty_list] ["Google Search"] = Ok m →
          m !! "Google Search"
          = Some (VList (concat (sequence_of "Google Search" <$> [response_empty_list])))).
Proof.
  intros Hclaim. specialize (Hclaim _ aggregate_empty_list).
  rewrite lookup_singleton_eq in Hclaim. discriminate.
Qed.

Lemma google_in_requested : "Google Search" ∈ ["Google Search"].
Proof. apply list_elem_of_singleton. reflexivity. Defined.

Lemma NoDup_google : NoDup ["Google Search"].
Proof. apply NoDup_singleton. Defined.

Lemma merge_keys_and_defaults_witness :
  ∃ m, aggregate_search_results [response_empty_list] ["Google Search"] = Ok m
    ∧ dom m = list_to_set ["Google Search"]
    ∧ m !! "Google Search" = Some (VDict []).
Proof.
  destruct (merge_keys_and_defaults [response_empty_list] ["Google Search"])
    as [_ Hshape].
  destruct (Hshape _ aggregate_empty_list) as (Hdom & _ & Hdefault).
  eexists. split_and!; [exact aggregate_empty_list|exact Hdom|].
  apply Hdefault; [apply google_in_requested|].
  intros s v Hs Hv. apply list_elem_of_singleton in Hs. subst s.
  change (Some (VList []) = Some v) in Hv. injection Hv as <-. reflexivity.
Defined.

Lemma merge_concatenates_sequences_witness :
  ∃ m, aggregate_search_results [response_ab; response_c] ["Google Search"] = Ok m
    ∧ m !! "Google Search" = Some (VList [VStr "a"; VStr "b"; VStr "c"]).
Proof.
  assert (∀ s, s ∈ [response_ab; response_c] →
               ∃ items, field_value s "Google Search" = Some (VList items)) as Hall.
  { intros s Hs. apply elem_of_cons in Hs as [->|Hs].
    - eexists. reflexivity.
    - apply list_elem_of_singleton in Hs. subst s. eexists. reflexivity. }
  destruct (merge_concatenates_sequences [response_ab; response_c]
              ["Google Search"] "Google Search"
              NoDup_google google_in_requested Hall) as [_ Hvalue].
  eexists. split; [exact aggregate_ab_then_c|].
  apply (proj1 (Hvalue _ aggregate_ab_then_c)).
  change ([VStr "a"; VStr "b"; VStr "c"] ≠ []). discriminate.
Defined.

Lemma merge_replaces_maps_witness :
  ∃ m, aggregate_search_results [response_x1; response_y2] ["Google Search"] = Ok m
    ∧ m !! "Google Search" = Some (VDict [("y", VInt 2)]).
Proof.
  assert ([("y", VInt 2)] ≠ ([] : list (string * value))) as Hne by discriminate.
  destruct (merge_replaces_maps [response_x1; response_y2] [response_x1] []
              response_y2 ["Google Search"] "Google Search" [("y", VInt 2)]
              google_in_requested eq_refl eq_refl Hne) as [_ Hvalue].
  { intros s' Hs'. by apply elem_of_nil in Hs'. }
  eexists. split; [exact aggregate_x1_then_y2|].
  exact (Hvalue _ aggregate_x1_then_y2).
Defined.

Lemma merge_raises_on_sequence_after_map_witness :
  raises (aggregate_search_results [response_ab; response_x1; response_c]
            ["Google Search"]).
Proof.
  assert ([("x", VInt 1)] ≠ ([] : list (string * value))) as Hne by discriminate.
  assert ([VStr "c"] ≠ ([] : list value)) as Hne' by discriminate.
  exact (proj1 (merge_raises_on_sequence_after_map
           [response_ab; response_x1; response_c] [response_ab] []
           response_x1 response_c ["Google Search"]
           "Google Search" [("x", VInt 1)] [VStr "c"]
           google_in_requested eq_refl eq_refl Hne eq_refl Hne')).
Defined.

Lemma merge_raises_on_unknown_tool_witness :
  raises (aggregate_search_results [response_ab] ["Google Search"; "Bing Search"])
  ∧ ∃ m, aggregate_search_results [] ["Google Search"; "Bing Search"] = Ok m
         ∧ m !! "Bing Search" = Some (VDict []).
Proof.
  assert ("Bing Search" ∈ ["Google Search"; "Bing Search"]) as Hin
    by (apply elem_of_cons; right; apply list_elem_of_singleton; reflexivity).
  assert (field_mapping !! "Bing Search" = None) as Hunknown by reflexivity.
  assert ([response_ab] ≠ []) as Hne by discriminate.
  destruct (merge_raises_on_unknown_tool [response_ab]
              ["Google Search"; "Bing Search"] "Bing Search" Hin Hunknown)
    as (Hraises & _ & _).
  destruct (merge_raises_on_unknown_tool []
              ["Google Search"; "Bing Search"] "Bing Search" Hin Hunknown)
    as (_ & _ & Hempty).
  split; [exact (Hraises Hne)|exact Hempty].
Defined.

End merger_facts.

(** * More on the stream relay *)

Section relay_more.
Import StreamRelay StreamReader.

Lemma join_cons_cons sep x y pieces :
  join sep (x :: y :: pieces) = x +:+ sep +:+ join sep (y :: pieces).
Proof. reflexivity. Qed.

Lemma join_split_nl s : join nl (split_nl s) = s.
Proof.
  induction s as [|c s IH]; [done|].
  simpl. case_decide as Hc.
  - subst c. pose proof (split_nl_nonempty s) as Hne.
    destruct (split_nl s) as [|line lines]; [done|].
    rewrite join_cons_cons, IH. reflexivity.
  - pose proof (split_nl_nonempty s) as Hne.
    destruct (split_nl s) as [|line lines]; [done|].
    destruct lines as [|line' lines].
    + simpl in *. by rewrite IH.
    + rewrite join_cons_cons in *. rewrite app_cons. by rewrite IH.
Qed.

Lemma split_nl_plain x : no_lf x → split_nl x = [x].
Proof.
  induction x as [|c x IH]; [done|].
  intros [Hc Hx]. simpl. rewrite decide_False by done. by rewrite IH.
Qed.

Lemma split_nl_join_plain pieces :
  pieces ≠ [] → Forall no_lf pieces → split_nl (join nl pieces) = pieces.
Proof.
  induction pieces as [|x pieces IH]; [done|].
  intros _ [Hx Hrest]%Forall_cons. destruct pieces as [|y pieces].
  - by apply split_nl_plain.
  - rewrite join_cons_cons. unfold nl at 1. rewrite app_cons, app_empty_l.
    rewrite split_nl_app_lf by done. by rewrite IH.
Qed.

Lemma string_drop_data_line line : string_drop 6 (data_line line) = pad_blank line.
Proof. reflexivity. Qed.

Lemma data_line_nonempty line : data_line line ≠ EmptyString.
Proof. done. Qed.

Lemma filter_data_lines lines :
  filter (λ line, line ≠ EmptyString) ((data_line <$> lines) ++ [EmptyString; EmptyString])
  = data_line <$> lines.
Proof.
  induction lines as [|line lines IH].
  - simpl. rewrite filter_cons_False by (by intros H).
    rewrite filter_cons_False by (by intros H). done.
  - rewrite fmap_cons. simpl. rewrite filter_cons_True by apply data_line_nonempty.
    by rewrite IH.
Qed.

Lemma pad_blank_id line : line ≠ EmptyString → pad_blank line = line.
Proof. intros Hne. unfold pad_blank. by rewrite decide_False. Qed.

Lemma pad_blank_no_lf line : no_lf line → no_lf (pad_blank line).
Proof.
  intros Hline. unfold pad_blank. case_decide; [|done].
  split; [by vm_compute|done].
Qed.

Lemma data_line_pad_blank line : data_line (pad_blank line) = data_line line.
Proof.
  unfold data_line, pad_blank. destruct (decide (line = EmptyString)) as [->|Hne]; [done|].
  by rewrite decide_False.
Qed.

(** The reader gets back the chunk with its blank lines turned into a
    single space, and the chunk itself when it has no blank line. *)
Theorem sse_decode_event (chunk : string) :
  sse_decode (sse_event chunk) = join nl (pad_blank <$> split_nl chunk)
  ∧ (Forall (λ line, line ≠ EmptyString) (split_nl chunk) →
     sse_decode (sse_event chunk) = chunk).
Proof.
  assert (sse_decode (sse_event chunk) = join nl (pad_blank <$> split_nl chunk)) as Hdec.
  { unfold sse_decode. rewrite split_nl_sse_event, filter_data_lines.
    rewrite <-list_fmap_compose. f_equal. }
  split; [done|]. intros Hall. rewrite Hdec. clear Hdec.
  rewrite <-(join_split_nl chunk) at 2. f_equal.
  induction Hall as [|line lines Hline Hlines IH]; [done|].
  rewrite fmap_cons. by rewrite pad_blank_id, IH.
Qed.

Lemma sse_decode_event_witness :
  Forall (λ line, line ≠ EmptyString) (split_nl ("ab" +:+ nl +:+ "c"))
  ∧ sse_decode (sse_event ("ab" +:+ nl +:+ "c")) = "ab" +:+ nl +:+ "c".
Proof.
  assert (Forall (λ line, line ≠ EmptyString) (split_nl ("ab" +:+ nl +:+ "c"))) as Hall.
  { change (Forall (λ line, line ≠ EmptyString) ["ab"; "c"]).
    repeat constructor; discriminate. }
  split; [exact Hall|].
  exact (proj2 (sse_decode_event ("ab" +:+ nl +:+ "c")) Hall).
Defined.

(** A blank line and a line holding one space give the same event: the
    event of a chunk is the event of the chunk with its blank lines
    replaced by a space. *)
Theorem sse_event_blank_as_space (chunk : string) :
  sse_event (join nl (pad_blank <$> split_nl chunk)) = sse_event chunk.
Proof.
  unfold sse_event. rewrite split_nl_join_plain.
  - rewrite <-list_fmap_compose. do 2 f_equal.
    apply list_fmap_ext. intros i line _. simpl. apply data_line_pad_blank.
  - intros Hnil. apply fmap_nil_inv in Hnil. by apply split_nl_nonempty in Hnil.
  - apply Forall_fmap. eapply Forall_impl; [apply split_nl_no_lf|].
    intros line Hline. by apply pad_blank_no_lf.
Qed.

Lemma all_chars_app p s t :
  all_chars p (s +:+ t) = all_chars p s && all_chars p t.
Proof.
  induction s as [|c s IH]; [done|].
  rewrite app_cons. simpl. by rewrite IH, andb_assoc.
Qed.

Lemma hex_digit_printable d : (d < 16)%N → printable (hex_digit d) = true.
Proof.
  intros Hd.
  destruct d as [|p]; [reflexivity|].
  do 4 (try (destruct p as [p|p|]; try reflexivity)); lia.
Qed.

Lemma hex4_printable n : all_chars printable (hex4 n) = true.
Proof.
  unfold hex4. cbn [all_chars].
  rewrite !hex_digit_printable; [done|apply N.mod_lt; lia..].
Qed.

Lemma u_escape_printable n : all_chars printable (u_escape n) = true.
Proof. unfold u_escape. cbn [all_chars]. by rewrite hex4_printable. Qed.

Lemma printable_ascii_of_N n :
  (32 ≤ n ∧ n ≤ 126)%N → printable (ascii_of_N n) = true.
Proof.
  intros Hn. unfold printable.
  assert (nat_of_ascii (ascii_of_N n) = N.to_nat n) as ->.
  { unfold nat_of_ascii. rewrite N_ascii_embedding; [done|lia]. }
  apply andb_true_iff. split; apply Nat.leb_le; lia.
Qed.

Lemma json_escape_char_printable n : all_chars printable (json_escape_char n) = true.
Proof.
  unfold json_escape_char. repeat case_decide; try reflexivity.
  - cbn [all_chars]. by rewrite printable_ascii_of_N.
  - apply u_escape_printable.
  - by rewrite all_chars_app, !u_escape_printable.
Qed.

Lemma json_escape_printable s : all_chars printable (json_escape s) = true.
Proof.
  induction s as [|c s IH]; [done|].
  simpl. by rewrite all_chars_app, json_escape_char_printable, IH.
Qed.

Lemma printable_no_lf s : all_chars printable s = true → no_lf s.
Proof.
  induction s as [|c s IH]; [done|].
  simpl. intros [Hc Hs]%andb_true_iff. split; [|by apply IH].
  intros ->. by vm_compute in Hc.
Qed.

(** Whatever the description of the exception holds (newlines, quotes,
    characters outside ASCII), the error event is made of printable ASCII
    characters and is one [data: ] line closed by a blank line. *)
Theorem error_event_one_record (str_e : list N) :
  all_chars printable (json_dumps_error str_e) = true
  ∧ split_nl (error_event str_e)
    = ["data: " +:+ json_dumps_error str_e; EmptyString; EmptyString].
Proof.
  assert (all_chars printable (json_dumps_error str_e) = true) as Hprintable.
  { unfold json_dumps_error, json_dumps_str.
    repeat first [rewrite all_chars_app | progress cbn [all_chars]].
    rewrite !json_escape_printable. reflexivity. }
  split; [done|]. unfold error_event.
  rewrite <-string_app_assoc. unfold nl at 1.
  change (String LF EmptyString +:+ nl) with (String LF nl).
  rewrite split_nl_app_lf; [done|].
  apply no_lf_app; [by vm_compute|by apply printable_no_lf].
Qed.

End relay_more.

(** * More on the worker selector *)

Section selector_more.
Import UIDManager Ranking.

Lemma insert_index_sorted I i sorted :
  StronglySorted (flip (at_least_as_good I)) sorted →
  StronglySorted (flip (at_least_as_good I)) (insert_index I i sorted).
Proof.
  induction sorted as [|j rest IH]; intros Hsorted; simpl.
  - repeat constructor.
  - apply StronglySorted_cons in Hsorted as [Hj Hrest]. case_decide as Hle.
    + apply StronglySorted_cons. split.
      * constructor; [done|]. eapply Forall_impl; [exact Hj|].
        intros x Hx. unfold flip, at_least_as_good in *. lia.
      * by apply StronglySorted_cons.
    + apply StronglySorted_cons. split; [|by apply IH].
      rewrite insert_index_Permutation. constructor; [|done].
      unfold flip, at_least_as_good. lia.
Qed.

Lemma argsort_sorted I : StronglySorted (flip (at_least_as_good I)) (argsort I).
Proof.
  unfold argsort. induction (seq 0 (length I)) as [|i l IH]; simpl.
  - constructor.
  - by apply insert_index_sorted.
Qed.

Lemma StronglySorted_reverse {A} (R : relation A) (l : list A) :
  StronglySorted (flip R) l → StronglySorted R (reverse l).
Proof.
  induction l as [|x l IH]; intros Hsorted; [constructor|].
  apply StronglySorted_cons in Hsorted as [Hx Hl].
  rewrite reverse_cons. apply StronglySorted_app_2.
  - intros x1 x2 Hx1 ->%list_elem_of_singleton.
    rewrite elem_of_reverse in Hx1. rewrite Forall_forall in Hx. exact (Hx x1 Hx1).
  - by apply IH.
  - repeat constructor.
Qed.

Lemma elem_of_argsort I u : u ∈ argsort I ↔ u < length I.
Proof.
  rewrite argsort_Permutation, elem_of_seq. lia.
Qed.

(** [top_uids] after a [resync] that is not a no-op: the
    [max_miners_to_use] best-scored uids of the metagraph (all of them if
    there are fewer), without repetition, best first; every uid left out
    is scored no better than every uid taken. *)
Theorem resync_top_uids_best (available : list nat) (s : state) :
  available ≠ [] →
  let top := top_uids (resync available s) in
  NoDup top
  ∧ length top = min (max_miners_to_use s) (length (metagraph_I s))
  ∧ (∀ u, u ∈ top → u < length (metagraph_I s))
  ∧ StronglySorted (at_least_as_good (metagraph_I s)) top
  ∧ (∀ u v, u ∈ top → v < length (metagraph_I s) → v ∉ top →
            at_least_as_good (metagraph_I s) u v).
Proof.
  intros Hne. unfold resync. rewrite decide_False by (by destruct available).
  cbn [top_uids]. set (I := metagraph_I s). set (k := max_miners_to_use s).
  assert (StronglySorted (at_least_as_good I) (reverse (argsort I))) as Hsorted
    by apply StronglySorted_reverse, argsort_sorted.
  split_and!.
  - apply NoDup_top_of.
  - unfold top_of. rewrite length_take, length_reverse.
    by rewrite (Permutation_length (argsort_Permutation I)), length_seq.
  - intros u Hu%subseteq_take. rewrite elem_of_reverse in Hu. by apply elem_of_argsort.
  - unfold top_of. rewrite <-(take_drop k (reverse (argsort I))) in Hsorted.
    by apply StronglySorted_app_1_l in Hsorted.
  - intros u v Hu Hv Hnotin. unfold top_of in *.
    rewrite <-(take_drop k (reverse (argsort I))) in Hsorted.
    eapply StronglySorted_app_1_elem_of; [exact Hsorted|done|].
    assert (v ∈ reverse (argsort I)) as Hin by (rewrite elem_of_reverse; by apply elem_of_argsort).
    rewrite <-(take_drop k (reverse (argsort I))) in Hin.
    apply elem_of_app in Hin as [Hin|Hin]; done.
Qed.

Lemma resync_top_uids_best_witness :
  [0; 1; 2; 3; 4] ≠ []
  ∧ top_uids five_workers = [2; 0; 3; 1; 4]
  ∧ NoDup (top_uids five_workers)
  ∧ length (top_uids five_workers) = 5.
Proof.
  assert ([0; 1; 2; 3; 4] ≠ ([] : list nat)) as Hne by discriminate.
  destruct (resync_top_uids_best [0; 1; 2; 3; 4] (init [4; 2; 5; 3; 1]%Z) Hne)
    as (Hnodup & Hlen & _).
  split_and!; [exact Hne|reflexivity|exact Hnodup|exact Hlen].
Defined.

Lemma length_top_of I k : length (top_of I k) ≤ k.
Proof. unfold top_of. rewrite length_take. lia. Qed.

Lemma resync_size available s :
  length (uids s) ≤ max_miners_to_use s →
  max_miners_to_use (resync available s) = max_miners_to_use s
  ∧ length (uids (resync available s)) ≤ max_miners_to_use s.
Proof.
  intros Hlen. destruct available as [|a available]; [done|].
  split; [done|]. rewrite resync_uids by done. case_decide.
  - etrans; [apply length_filter|apply length_top_of].
  - etrans; [apply length_filter|done].
Qed.

Lemma after_failed_draw_size s :
  length (uids s) ≤ max_miners_to_use s →
  max_miners_to_use (after_failed_draw s) = max_miners_to_use s
  ∧ length (uids (after_failed_draw s)) ≤ max_miners_to_use s.
Proof.
  intros Hlen. unfold after_failed_draw. case_decide; [by apply resync_size|done].
Qed.

Lemma get_miner_uid_size r s uid s' :
  length (uids s) ≤ max_miners_to_use s →
  get_miner_uid r s = Ok (uid, s') →
  max_miners_to_use s' = max_miners_to_use s
  ∧ length (uids s') < max_miners_to_use s.
Proof.
  intros Hlen Hget. destruct (after_failed_draw_size s Hlen) as [HK Hlen'].
  unfold get_miner_uid in Hget. fold (after_failed_draw s) in Hget.
  destruct (random_choice r _) as [uid'|] eqn:Hchoice; simpl in Hget; [|done].
  assert (uid' ∈ uids (after_failed_draw s)) as Huid.
  { unfold random_choice in Hchoice.
    destruct (_ !! _) eqn:Hl; simplify_eq. by eapply list_elem_of_lookup_2. }
  destruct (list_remove_elem _ _ Huid) as (uids' & Hrem & Hperm & _).
  rewrite Hrem in Hget. simpl in Hget. injection Hget as <- <-. simpl.
  split; [done|]. apply Permutation_length in Hperm. simpl in Hperm. lia.
Qed.

Lemma reachable_size s :
  reachable s → max_miners_to_use s = 100 ∧ length (uids s) ≤ 100.
Proof.
  induction 1 as [I|s s' _ [HK Hlen] Hstep]; [simpl; lia|].
  rewrite <-HK in Hlen.
  destruct Hstep as [available s|r s uid s' Hget|r s e Hget|I s].
  - destruct (resync_size available s Hlen) as [-> ?]. lia.
  - destruct (get_miner_uid_size _ _ _ _ Hlen Hget) as [-> ?]. lia.
  - destruct (after_failed_draw_size s Hlen) as [-> ?]. lia.
  - simpl. lia.
Qed.

(** On an object built by [__init__] and used in any way since, the draw
    list has no repetition, holds only uids of the last non-empty
    available list, and never holds more than the 100 uids
    [max_miners_to_use] allows. *)
Theorem reachable_draw_list (s : state) :
  reachable s →
  NoDup (uids s)
  ∧ uids s ⊆ available_uids s
  ∧ max_miners_to_use s = 100
  ∧ length (uids s) ≤ 100.
Proof.
  intros Hreach. destruct (reachable_ok s Hreach) as [Hnodup Hsub].
  destruct (reachable_size s Hreach) as [HK Hlen]. done.
Qed.

Lemma reachable_draw_list_witness :
  reachable five_workers
  ∧ NoDup (uids five_workers)
  ∧ uids five_workers ⊆ available_uids five_workers
  ∧ max_miners_to_use five_workers = 100
  ∧ length (uids five_workers) ≤ 100.
Proof.
  split; [apply reachable_five_workers|].
  exact (reachable_draw_list five_workers reachable_five_workers).
Defined.

(** [resync] with an empty list changes nothing; with a non-empty list
    it records the list and, when a uid of the draw list is still in it,
    only drops the uids that are not (no worker is added, the order is
    kept); when none is, the draw list is rebuilt from [top_uids].  In
    both cases the new draw list is within the new available list. *)
Theorem resync_keeps_cycle (available : list nat) (s : state) :
  resync [] s = s
  ∧ (available ≠ [] →
     available_uids (resync available s) = available
     ∧ metagraph_I (resync available s) = metagraph_I s
     ∧ uids (resync available s) ⊆ available
     ∧ ((∃ uid, uid ∈ uids s ∧ uid ∈ available) →
        uids (resync available s) = filter (λ uid, uid ∈ available) (uids s)
        ∧ uids (resync available s) `sublist_of` uids s)
     ∧ ((∀ uid, uid ∈ uids s → uid ∉ available) →
        uids (resync available s)
        = filter (λ uid, uid ∈ available) (top_uids (resync available s)))).
Proof.
  split; [done|]. intros Hne.
  assert (top_uids (resync available s)
          = top_of (metagraph_I s) (max_miners_to_use s)) as Htop.
  { unfold resync. by rewrite decide_False by (by destruct available). }
  assert (metagraph_I (resync available s) = metagraph_I s) as HI.
  { unfold resync. by rewrite decide_False by (by destruct available). }
  rewrite Htop, resync_available, resync_uids by done.
  split_and!; [done|done| | |].
  - case_decide; intros uid [Huid _]%list_elem_of_filter; done.
  - intros (uid & Huid & Havail). rewrite decide_False.
    + split; [done|]. apply sublist_filter.
    + intros Hnil.
      assert (uid ∈ filter (λ uid, uid ∈ available) (uids s)) as Hin
        by by apply list_elem_of_filter.
      rewrite Hnil in Hin. by apply elem_of_nil in Hin.
  - intros Hnone. rewrite decide_True; [done|].
    destruct (filter _ (uids s)) as [|x l] eqn:Hf; [done|].
    assert (x ∈ filter (λ uid, uid ∈ available) (uids s)) as [Hx Hx']%list_elem_of_filter
      by (rewrite Hf; by left).
    by apply Hnone in Hx'.
Qed.

Lemma resync_keeps_cycle_witness :
  [1; 3; 7] ≠ []
  ∧ uids (resync [1; 3; 7] five_workers) = [3; 1]
  ∧ uids (resync [1; 3; 7] five_workers) `sublist_of` uids five_workers.
Proof.
  assert ([1; 3; 7] ≠ ([] : list nat)) as Hne by discriminate.
  destruct (proj2 (resync_keeps_cycle [1; 3; 7] five_workers) Hne)
    as (_ & _ & _ & Hkeep & _).
  destruct Hkeep as [Heq Hsub].
  { exists 3. split; apply (bool_decide_unpack _); vm_compute; exact I. }
  split_and!; [exact Hne|exact Heq|exact Hsub].
Defined.

(** A draw on a non-empty draw list does not resync: it returns a uid of
    the list, removes one occurrence of it, keeps the others in their
    order, and leaves every other field alone. *)
Theorem draw_removes_returned_uid (r : nat) (s : state) :
  uids s ≠ [] →
  ∃ uid s', get_miner_uid r s = Ok (uid, s')
    ∧ uid ∈ uids s
    ∧ uids s ≡ₚ uid :: uids s'
    ∧ uids s' `sublist_of` uids s
    ∧ available_uids s' = available_uids s
    ∧ top_uids s' = top_uids s
    ∧ metagraph_I s' = metagraph_I s
    ∧ max_miners_to_use s' = max_miners_to_use s.
Proof.
  intros Hne.
  destruct (get_miner_uid_nonempty r s Hne) as (uid & uids' & Hget & Huid & Hperm & Hsub).
  eexists uid, _. split; [exact Hget|]. simpl. done.
Qed.

Lemma draw_removes_returned_uid_witness :
  uids five_workers ≠ []
  ∧ ∃ uid s', get_miner_uid 7 five_workers = Ok (uid, s')
      ∧ uid ∈ uids five_workers
      ∧ uids five_workers ≡ₚ uid :: uids s'
      ∧ uids s' `sublist_of` uids five_workers
      ∧ available_uids s' = available_uids five_workers
      ∧ top_uids s' = top_uids five_workers
      ∧ metagraph_I s' = metagraph_I five_workers
      ∧ max_miners_to_use s' = max_miners_to_use five_workers.
Proof.
  assert (uids five_workers ≠ []) as Hne by discriminate.
  split; [exact Hne|]. exact (draw_removes_returned_uid 7 five_workers Hne).
Defined.

Lemma draws_all rs s :
  NoDup (uids s) → length rs = length (uids s) →
  ∃ ids s', draws rs s = Ok (ids, s')
    ∧ ids ≡ₚ uids s ∧ uids s' = []
    ∧ available_uids s' = available_uids s ∧ top_uids s' = top_uids s.
Proof.
  revert s. induction rs as [|r rs IH]; intros s Hnodup Hlen.
  - exists [], s. simpl in Hlen. by destruct (uids s).
  - destruct (get_miner_uid_nonempty r s) as (uid & uids' & Hget & Huid & Hperm & Hsub).
    { destruct (uids s); [done|done]. }
    simpl. rewrite Hget. simpl. set (s1 := State _ _ uids' _ _).
    destruct (IH s1) as (ids & s2 & -> & Hids & Hempty & Havail & Htop).
    + simpl. by eapply sublist_NoDup.
    + simpl in *. apply Permutation_length in Hperm. simpl in Hperm. lia.
    + exists (uid :: ids), s2. simpl. split_and!; [done| |done|done|done].
      rewrite Hperm. simpl in Hids. by rewrite Hids.
Qed.

(** A whole cycle: on an object built by [__init__] and used in any way
    since, as many draws as the draw list is long return every uid of the
    list exactly once and leave the list empty, the available list and
    [top_uids] untouched. *)
Theorem draws_exhaust_cycle (s : state) (rs : list nat) :
  reachable s → length rs = length (uids s) →
  ∃ ids s', draws rs s = Ok (ids, s')
    ∧ ids ≡ₚ uids s ∧ uids s' = []
    ∧ available_uids s' = available_uids s ∧ top_uids s' = top_uids s.
Proof.
  intros [Hnodup _]%reachable_ok Hlen. by apply draws_all.
Qed.

Lemma draws_exhaust_cycle_witness :
  reachable five_workers
  ∧ length [4; 1; 0; 2; 9] = length (uids five_workers)
  ∧ ∃ ids s', draws [4; 1; 0; 2; 9] five_workers = Ok (ids, s')
      ∧ ids ≡ₚ uids five_workers ∧ uids s' = []
      ∧ available_uids s' = available_uids five_workers
      ∧ top_uids s' = top_uids five_workers.
Proof.
  assert (length [4; 1; 0; 2; 9] = length (uids five_workers)) as Hlen by reflexivity.
  split_and!; [apply reachable_five_workers|exact Hlen|].
  exact (draws_exhaust_cycle five_workers [4; 1; 0; 2; 9] reachable_five_workers Hlen).
Defined.

End selector_more.

(** * More on the result merger *)

Section merger_more.
Import ResultMerger MergedValues.

Lemma merge_values_fields n responses tool current v :
  0 < n → merge_values n responses tool current = Ok v →
  ∀ s, s ∈ responses → is_Some (field_value s tool).
Proof.
  intros Hn. revert current.
  induction responses as [|s responses IH]; intros current Hmerge s' Hin.
  - by apply elem_of_nil in Hin.
  - simpl in Hmerge.
    destruct (iter_merge n s tool current) as [v1|] eqn:Hiter; simpl in Hmerge; [|done].
    apply elem_of_cons in Hin as [->|Hin].
    + by eapply iter_merge_returns_value.
    + by eapply IH.
Qed.

(** A response that lacks the field of a requested tool makes the merge
    raise, wherever it stands in the list; with [AttributeError] when it
    is the first response and the tool the first requested. *)
Theorem merge_raises_on_missing_field
    (responses : list synapse) (tools : list string) (tool field : string)
    (s : synapse) :
  tool ∈ tools → field_mapping !! tool = Some field →
  s ∈ responses → s !! field = None →
  raises (aggregate_search_results responses tools)
  ∧ (∀ rest more,
       aggregate_search_results (s :: rest) (tool :: more) = Raise AttributeError).
Proof.
  intros Htool Hfield Hs Hmissing. split.
  - destruct (aggregate_search_results _ tools) as [m|e] eqn:Hagg; [|by exists e].
    destruct (aggregate_lookup _ _ _ _ Hagg Htool) as (v & Hv & _).
    destruct (merge_values_fields _ _ _ _ _ (occurrences_pos _ _ Htool) Hv s Hs)
      as [x Hx].
    unfold field_value in Hx. rewrite Hfield in Hx. simpl in Hx. congruence.
  - intros rest more. unfold aggregate_search_results. simpl.
    unfold merge_tool, getattr. by rewrite Hfield, Hmissing.
Qed.

Lemma merge_raises_on_missing_field_witness :
  raises (aggregate_search_results
            [<["reddit_search_results" := VList []]> response_ab; response_c]
            ["Google Search"; "Reddit Search"]).
Proof.
  refine (proj1 (merge_raises_on_missing_field
            [<["reddit_search_results" := VList []]> response_ab; response_c]
            ["Google Search"; "Reddit Search"] "Reddit Search"
            "reddit_search_results" response_c _ eq_refl _ eq_refl)).
  - apply elem_of_cons. right. apply list_elem_of_singleton. reflexivity.
  - apply elem_of_cons. right. apply list_elem_of_singleton. reflexivity.
Defined.

Lemma iter_merge_replace n s tool current v :
  0 < n → field_value s tool = Some v → truthy v = true → is_list v = false →
  iter_merge n s tool current = Ok v.
Proof.
  intros Hn Hv Htruthy Hlist.
  assert (∀ c, merge_value s tool c = Ok v) as Hstep.
  { intros c. unfold merge_value. rewrite (getattr_field_value _ _ _ Hv).
    simpl. rewrite Htruthy. by destruct v. }
  destruct n as [|n]; [lia|]. clear Hn. revert current.
  induction n as [|n IH]; intros current; simpl.
  - by rewrite Hstep.
  - rewrite Hstep. simpl. apply (IH v).
Qed.

(** A value with data that is not a sequence (a map, a string, a number)
    replaces whatever was accumulated for the tool, sequences included:
    when the responses after it have no data for the tool, it is the
    merged value. *)
Theorem merge_replaces_by_non_sequence
    (responses before after : list synapse) (s : synapse)
    (tools : list string) (tool : string) (v : value) :
  tool ∈ tools →
  responses = before ++ s :: after →
  field_value s tool = Some v → truthy v = true → is_list v = false →
  no_data after tool →
  ∀ m, aggregate_search_results responses tools = Ok m → m !! tool = Some v.
Proof.
  intros Htool -> Hv Htruthy Hlist Hafter m Hagg.
  destruct (aggregate_lookup _ _ _ _ Hagg Htool) as (v' & Hv' & Hm).
  pose proof (occurrences_pos _ _ Htool) as Hpos.
  assert (∀ s', s' ∈ after → is_Some (field_value s' tool)) as Hfields.
  { intros s' Hs'. eapply merge_values_fields; [exact Hpos|exact Hv'|].
    apply elem_of_app. right. by right. }
  rewrite merge_values_app in Hv'.
  destruct (merge_values _ before tool VNone) as [v1|]; simpl in Hv'; [|done].
  rewrite (iter_merge_replace _ _ _ _ v) in Hv' by done. simpl in Hv'.
  rewrite merge_values_falsy in Hv'.
  - injection Hv' as <-. rewrite Hm. by destruct v.
  - intros s' Hs'. destruct (Hfields s' Hs') as [x Hx]. exists x.
    split; [done|]. by eapply Hafter.
Qed.

Lemma merge_replaces_by_non_sequence_witness :
  ∃ m, aggregate_search_results [response_ab; response_x1] ["Google Search"] = Ok m
    ∧ m !! "Google Search" = Some (VDict [("x", VInt 1)]).
Proof.
  assert (aggregate_search_results [response_ab; response_x1] ["Google Search"]
          = Ok {[ "Google Search" := VDict [("x", VInt 1)] ]}) as Hagg
    by (vm_compute; reflexivity).
  eexists. split; [exact Hagg|].
  refine (merge_replaces_by_non_sequence [response_ab; response_x1] [response_ab] []
            response_x1 ["Google Search"] "Google Search" (VDict [("x", VInt 1)])
            google_in_requested eq_refl eq_refl eq_refl eq_refl _ _ Hagg).
  intros s' v' Hs'. by apply elem_of_nil in Hs'.
Defined.

Lemma iter_merge_sequences n s tool prefix items :
  field_value s tool = Some (VList items) →
  iter_merge n s tool (accumulated prefix)
  = Ok (accumulated (prefix ++ concat (replicate n items))).
Proof.
  intros Hitems. revert prefix. induction n as [|n IH]; intros prefix; simpl.
  - by rewrite app_nil_r.
  - rewrite (merge_value_sequence _ _ _ items Hitems). simpl.
    rewrite IH. by rewrite app_assoc.
Qed.

Lemma merge_values_repeated n responses tool prefix :
  (∀ s, s ∈ responses → ∃ items, field_value s tool = Some (VList items)) →
  merge_values n responses tool (accumulated prefix)
  = Ok (accumulated
          (prefix ++ concat ((λ s, concat (replicate n (sequence_of tool s)))
                               <$> responses))).
Proof.
  revert prefix. induction responses as [|s responses IH]; intros prefix Hall.
  - simpl. by rewrite app_nil_r.
  - destruct (Hall s) as [items Hitems]; [by left|].
    simpl. rewrite (iter_merge_sequences _ _ _ _ items Hitems). simpl.
    rewrite IH by (intros s' Hin; apply Hall; by right).
    unfold sequence_of at 2. rewrite Hitems. by rewrite app_assoc.
Qed.

(** The requested tools are a list: a tool listed [n] times has the
    sequence of every response appended [n] times in a row. *)
Theorem merge_repeats_for_repeated_tool
    (responses : list synapse) (tools : list string) (tool : string) :
  tool ∈ tools →
  (∀ s, s ∈ responses → ∃ items, field_value s tool = Some (VList items)) →
  ∀ m, aggregate_search_results responses tools = Ok m →
    let all := concat ((λ s, concat (replicate (occurrences tool tools)
                                       (sequence_of tool s))) <$> responses) in
    (all ≠ [] → m !! tool = Some (VList all))
    ∧ (all = [] → m !! tool = Some (VDict [])).
Proof.
  intros Htool Hall m Hagg.
  destruct (aggregate_lookup _ _ _ _ Hagg Htool) as (v & Hv & Hm).
  change VNone with (accumulated []) in Hv.
  rewrite merge_values_repeated in Hv by done. simpl in Hv. simplify_eq.
  simpl. rewrite Hm. split.
  - intros Hne. by destruct (concat _).
  - by intros ->.
Qed.

Lemma merge_repeats_for_repeated_tool_witness :
  ∃ m, aggregate_search_results [response_ab; response_c]
         ["Google Search"; "Google Search"] = Ok m
    ∧ m !! "Google Search"
      = Some (VList [VStr "a"; VStr "b"; VStr "a"; VStr "b"; VStr "c"; VStr "c"]).
Proof.
  assert (aggregate_search_results [response_ab; response_c]
            ["Google Search"; "Google Search"]
          = Ok {[ "Google Search" :=
                    VList [VStr "a"; VStr "b"; VStr "a"; VStr "b"; VStr "c"; VStr "c"] ]})
    as Hagg by (vm_compute; reflexivity).
  assert (∀ s, s ∈ [response_ab; response_c] →
               ∃ items, field_value s "Google Search" = Some (VList items)) as Hall.
  { intros s Hs. apply elem_of_cons in Hs as [->|Hs].
    - eexists. reflexivity.
    - apply list_elem_of_singleton in Hs. subst s. eexists. reflexivity. }
  assert ("Google Search" ∈ ["Google Search"; "Google Search"]) as Hin
    by (apply elem_of_cons; left; reflexivity).
  eexists. split; [exact Hagg|].
  apply (proj1 (merge_repeats_for_repeated_tool [response_ab; response_c]
                  ["Google Search"; "Google Search"] "Google Search" Hin Hall _ Hagg)).
  change ([VStr "a"; VStr "b"; VStr "a"; VStr "b"; VStr "c"; VStr "c"] ≠ []).
  discriminate.
Defined.

Lemma getattr_same_field s1 s2 tool :
  field_value s1 tool = field_value s2 tool →
  getattr s1 (field_mapping !! tool) = getattr s2 (field_mapping !! tool).
Proof.
  unfold field_value, getattr. destruct (field_mapping !! tool) as [field|]; [|done].
  simpl. by intros ->.
Qed.

Lemma iter_merge_same_field n s1 s2 tool current :
  field_value s1 tool = field_value s2 tool →
  iter_merge n s1 tool current = iter_merge n s2 tool current.
Proof.
  intros Hsame. revert current. induction n as [|n IH]; intros current; [done|].
  simpl. unfold merge_value. rewrite (getattr_same_field _ _ _ Hsame).
  destruct (getattr s2 _) as [result|]; simpl; [|done].
  destruct (truthy result).
  - destruct result; simpl; try apply IH.
    destruct (extend _ _); simpl; [apply IH|done].
  - apply IH.
Qed.

Lemma merge_values_same_field n responses1 responses2 tool current :
  Forall2 (λ s1 s2, field_value s1 tool = field_value s2 tool) responses1 responses2 →
  merge_values n responses1 tool current = merge_values n responses2 tool current.
Proof.
  intros Hsame. revert current.
  induction Hsame as [|s1 s2 l1 l2 Hs _ IH]; intros current; [done|].
  simpl. rewrite (iter_merge_same_field _ _ _ _ _ Hs).
  destruct (iter_merge n s2 tool current); simpl; [apply IH|done].
Qed.

(** The merged value of a tool depends only on what the responses hold
    for this tool: two lists of responses that agree on it, one by one,
    merge to the same value for it, whatever they hold for the other
    tools. *)
Theorem merge_tools_independent
    (responses1 responses2 : list synapse) (tools : list string) (tool : string)
    (m1 m2 : gmap string value) :
  Forall2 (λ s1 s2, field_value s1 tool = field_value s2 tool) responses1 responses2 →
  aggregate_search_results responses1 tools = Ok m1 →
  aggregate_search_results responses2 tools = Ok m2 →
  m1 !! tool = m2 !! tool.
Proof.
  intros Hsame Hagg1 Hagg2. destruct (decide (tool ∈ tools)) as [Htool|Htool].
  - destruct (aggregate_lookup _ _ _ _ Hagg1 Htool) as (v1 & Hv1 & ->).
    destruct (aggregate_lookup _ _ _ _ Hagg2 Htool) as (v2 & Hv2 & ->).
    rewrite (merge_values_same_field _ _ _ _ _ Hsame) in Hv1. congruence.
  - assert (∀ m responses, aggregate_search_results responses tools = Ok m →
                            m !! tool = None) as Hnone.
    { intros m responses Hm. apply not_elem_of_dom.
      rewrite (aggregate_dom _ _ _ Hm). by rewrite elem_of_list_to_set. }
    by rewrite (Hnone _ _ Hagg1), (Hnone _ _ Hagg2).
Qed.

Lemma merge_tools_independent_witness :
  ∃ m1 m2,
    aggregate_search_results [response_ab] ["Google Search"] = Ok m1
    ∧ aggregate_search_results [<["miner_tweets" := VInt 7]> response_ab]
        ["Google Search"] = Ok m2
    ∧ m1 !! "Google Search" = m2 !! "Google Search".
Proof.
  assert (aggregate_search_results [response_ab] ["Google Search"]
          = Ok {[ "Google Search" := VList [VStr "a"; VStr "b"] ]}) as Hagg1
    by (vm_compute; reflexivity).
  assert (aggregate_search_results [<["miner_tweets" := VInt 7]> response_ab]
            ["Google Search"]
          = Ok {[ "Google Search" := VList [VStr "a"; VStr "b"] ]}) as Hagg2
    by (vm_compute; reflexivity).
  eexists _, _. split_and!; [exact Hagg1|exact Hagg2|].
  refine (merge_tools_independent [response_ab]
            [<["miner_tweets" := VInt 7]> response_ab] ["Google Search"]
            "Google Search" _ _ _ Hagg1 Hagg2).
  constructor; [reflexivity|constructor].
Defined.

Lemma merge_value_data s tool current v :
  none_or_data current → merge_value s tool current = Ok v → none_or_data v.
Proof.
  intros Hcur Hmerge. unfold merge_value in Hmerge.
  destruct (getattr s _) as [result|]; simpl in Hmerge; [|done].
  destruct (truthy result) eqn:Htruthy; [|by simplify_eq].
  destruct result as [| | | |items|entries]; simplify_eq/=; try by right.
  destruct items as [|x items]; [done|].
  destruct current as [| | | |acc|]; simplify_eq/=; right; [done|].
  by destruct acc.
Qed.

Lemma iter_merge_data n s tool current v :
  none_or_data current → iter_merge n s tool current = Ok v → none_or_data v.
Proof.
  revert current. induction n as [|n IH]; intros current Hcur Hiter; simpl in Hiter.
  - by simplify_eq.
  - destruct (merge_value s tool current) as [v1|] eqn:Hstep; simpl in Hiter; [|done].
    eapply IH; [|done]. by eapply merge_value_data.
Qed.

Lemma merge_values_data n responses tool current v :
  none_or_data current → merge_values n responses tool current = Ok v →
  none_or_data v.
Proof.
  revert current.
  induction responses as [|s responses IH]; intros current Hcur Hmerge; simpl in Hmerge.
  - by simplify_eq.
  - destruct (iter_merge n s tool current) as [v1|] eqn:Hiter; simpl in Hmerge; [|done].
    eapply IH; [|done]. by eapply iter_merge_data.
Qed.

(** What the merge returns never binds a tool to an empty sequence, an
    empty string, zero, [False] or [None]: every value is the empty map
    or a value with data. *)
Theorem merge_values_have_data
    (responses : list synapse) (tools : list string) (m : gmap string value)
    (tool : string) (v : value) :
  aggregate_search_results responses tools = Ok m →
  m !! tool = Some v →
  v = VDict [] ∨ truthy v = true.
Proof.
  intros Hagg Hv.
  assert (tool ∈ tools) as Htool.
  { assert (tool ∈ dom m) as Hdom by (apply elem_of_dom; by eexists).
    rewrite (aggregate_dom _ _ _ Hagg) in Hdom.
    by rewrite elem_of_list_to_set in Hdom. }
  destruct (aggregate_lookup _ _ _ _ Hagg Htool) as (v0 & Hv0 & Hm).
  assert (none_or_data v0) as [->|Hdata]
    by (eapply merge_values_data; [|exact Hv0]; by left).
  - left. simpl in Hm. congruence.
  - right. rewrite Hm in Hv. destruct v0; simplify_eq/=; done.
Qed.

Lemma merge_values_have_data_witness :
  ∃ m, aggregate_search_results [response_empty_list] ["Google Search"] = Ok m
    ∧ m !! "Google Search" = Some (VDict [])
    ∧ (VDict [] = VDict [] ∨ truthy (VDict []) = true).
Proof.
  eexists. split_and!; [exact aggregate_empty_list|apply lookup_singleton_eq|].
  exact (merge_values_have_data [response_empty_list] ["Google Search"] _
           "Google Search" (VDict []) aggregate_empty_list
           (lookup_singleton_eq _ _)).
Defined.

End merger_more.

(** * Properties of the endpoints *)

Section endpoint_facts.
Import StreamRelay ResultMerger Endpoints.

(** Without the expected access key every endpoint answers 401 with the
    same detail, whatever the query execution would have produced. *)
Theorem endpoints_reject_wrong_key
    (organic : organic_run) (p : producer) (body : LinksSearchRequest)
    (access_key : option string) (expected_access_key : string)
    (requested : list string) :
  access_key ≠ Some expected_access_key →
  handle_search_links organic body access_key expected_access_key requested
    = HTTPException 401 "Invalid access key"
  ∧ search_links_web organic expected_access_key body access_key
    = HTTPException 401 "Invalid access key"
  ∧ search_links_twitter organic expected_access_key body access_key
    = HTTPException 401 "Invalid access key"
  ∧ search_links organic expected_access_key body access_key
    = HTTPException 401 "Invalid access key"
  ∧ search p expected_access_key access_key
    = HTTPException 401 "Invalid access key".
Proof.
  intros Hkey.
  unfold search_links_web, search_links_twitter, search_links,
    handle_search_links, search.
  by rewrite !decide_True by done.
Qed.

Lemma endpoints_reject_wrong_key_witness :
  None ≠ Some "test"
  ∧ search_links (λ _ _, ([], Some (Exception (code_points "down"))))
      "test" {| prompt := "q"; tools := [] |} None
    = HTTPException 401 "Invalid access key".
Proof.
  assert ((None : option string) ≠ Some "test") as Hkey by discriminate.
  split; [exact Hkey|].
  exact (proj1 (proj2 (proj2 (proj2
    (endpoints_reject_wrong_key (λ _ _, ([], Some (Exception (code_points "down"))))
       StopAsyncIteration {| prompt := "q"; tools := [] |} None "test" [] Hkey))))).
Defined.

Lemma aggregate_raises_unknown (responses : list synapse) requested tool :
  tool ∈ requested → field_mapping !! tool = None → responses ≠ [] →
  raises (aggregate_search_results responses requested).
Proof.
  intros Htool Hunknown Hne.
  destruct (aggregate_search_results _ requested) as [m|e] eqn:Hagg; [|by exists e].
  destruct (aggregate_lookup _ _ _ _ Hagg Htool) as (v & Hv & _).
  pose proof (occurrences_pos _ _ Htool) as Hpos.
  destruct responses as [|s responses]; [done|].
  destruct (occurrences tool requested) as [|n]; [lia|].
  simpl in Hv. unfold merge_value in Hv. by rewrite getattr_unknown in Hv.
Qed.

(** With the right key, [/search/links/web] asked for a tool that has no
    entry in [field_mapping] answers 500 as soon as the query execution
    yields one response; the detail is fixed and tells nothing of the
    cause. *)
Theorem search_links_web_unknown_tool
    (organic : organic_run) (body : LinksSearchRequest) (key tool : string)
    (s : synapse) (rest : list synapse) :
  tool ∈ tools body → tool ≠ "Twitter Search" →
  field_mapping !! tool = None →
  organic (prompt body) (filter (λ t, t ≠ "Twitter Search") (tools body))
    = (s :: rest, None) →
  search_links_web organic key body (Some key)
    = HTTPException 500 "Internal Server Error".
Proof.
  intros Htool Hweb Hunknown Hrun. unfold search_links_web, handle_search_links.
  rewrite decide_False by (by intros H). rewrite Hrun.
  destruct (aggregate_raises_unknown (s :: rest)
              (filter (λ t, t ≠ "Twitter Search") (tools body)) tool)
    as [e ->]; [by apply list_elem_of_filter|done|done|done].
Qed.

Lemma search_links_web_unknown_tool_witness :
  search_links_web (λ _ _, ([response_ab], None)) "test"
    {| prompt := "q"; tools := ["Google Search"; "Bing Search"] |} (Some "test")
  = HTTPException 500 "Internal Server Error".
Proof.
  refine (search_links_web_unknown_tool (λ _ _, ([response_ab], None))
            {| prompt := "q"; tools := ["Google Search"; "Bing Search"] |}
            "test" "Bing Search" response_ab [] _ _ eq_refl eq_refl).
  - apply elem_of_cons. right. apply list_elem_of_singleton. reflexivity.
  - discriminate.
Defined.

Lemma handle_search_links_returns organic body access_key key requested m :
  handle_search_links organic body access_key key requested = Returns m →
  aggregate_search_results (organic (prompt body) requested).1 requested = Ok m.
Proof.
  unfold handle_search_links. case_decide; [done|].
  destruct (organic (prompt body) requested) as [synapses [[e|]|]]; simpl; try done.
  destruct (aggregate_search_results synapses requested); [|done].
  by intros [= ->].
Qed.

Lemma NoDup_available_tools : NoDup available_tools.
Proof. apply (bool_decide_unpack _). by vm_compute. Qed.

(** The keys of what the three link endpoints return do not depend on
    the responses: the requested tools without [Twitter Search] for the
    web endpoint, [Twitter Search] alone for the twitter endpoint and the
    nine available tools for the general one, whatever tools the request
    body lists for the last two. *)
Theorem search_links_keys
    (organic : organic_run) (body : LinksSearchRequest)
    (access_key : option string) (key : string) (m : gmap string value) :
  (search_links_web organic key body access_key = Returns m →
   dom m = list_to_set (filter (λ tool, tool ≠ "Twitter Search") (tools body))
   ∧ m !! "Twitter Search" = None)
  ∧ (search_links_twitter organic key body access_key = Returns m →
     dom m = {[ "Twitter Search" ]})
  ∧ (search_links organic key body access_key = Returns m →
     dom m = list_to_set available_tools ∧ size m = 9).
Proof.
  split_and!.
  - intros Hm%handle_search_links_returns%aggregate_dom. split; [done|].
    apply not_elem_of_dom. rewrite Hm, elem_of_list_to_set.
    by intros [? _]%list_elem_of_filter.
  - intros Hm%handle_search_links_returns%aggregate_dom.
    rewrite Hm. unfold twitter_tool. apply set_eq. intros x.
    by rewrite elem_of_list_to_set, list_elem_of_singleton, elem_of_singleton.
  - intros Hm%handle_search_links_returns%aggregate_dom. split; [done|].
    rewrite <-size_dom, Hm.
    by rewrite (size_list_to_set _ NoDup_available_tools).
Qed.

Lemma search_links_keys_witness :
  ∃ m, search_links_twitter (λ _ _, ([], None)) "test"
         {| prompt := "q"; tools := ["Google Search"] |} (Some "test") = Returns m
    ∧ dom m = {[ "Twitter Search" ]}.
Proof.
  assert (search_links_twitter (λ _ _, ([], None)) "test"
            {| prompt := "q"; tools := ["Google Search"] |} (Some "test")
          = Returns {[ "Twitter Search" := VDict [] ]}) as Hm
    by (vm_compute; reflexivity).
  eexists. split; [exact Hm|].
  exact (proj1 (proj2 (search_links_keys (λ _ _, ([], None))
                         {| prompt := "q"; tools := ["Google Search"] |}
                         (Some "test") "test" _)) Hm).
Defined.

Lemma uniform_well_formed synapses :
  Forall well_formed synapses → uniform synapses available_tools.
Proof.
  rewrite Forall_forall. intros Hall tool Htool. split.
  - intros s Hs. destruct (Hall s Hs tool Htool) as (v & Hv & _). by eexists.
  - left. intros s v Hs Hv Htruthy.
    destruct (Hall s Hs tool Htool) as (v' & Hv' & Hseq).
    rewrite Hv in Hv'. injection Hv' as <-. by apply Hseq.
Qed.

(** With the right key, when the query execution ends normally and every
    response has the nine fields, each a sequence or without data,
    [/search/links] returns a map with exactly the nine available tools
    as keys: every available tool has its entry in [field_mapping]. *)
Theorem search_links_returns_all
    (organic : organic_run) (body : LinksSearchRequest) (key : string)
    (synapses : list synapse) :
  organic (prompt body) available_tools = (synapses, None) →
  Forall well_formed synapses →
  ∃ m, search_links organic key body (Some key) = Returns m
    ∧ dom m = list_to_set available_tools
    ∧ size m = 9.
Proof.
  intros Hrun Hall. unfold search_links, handle_search_links.
  rewrite decide_False by (by intros H). rewrite Hrun.
  destruct (aggregate_returns_uniform synapses available_tools) as [m Hm];
    [by apply uniform_well_formed|].
  rewrite Hm. exists m. split; [done|].
  pose proof (aggregate_dom _ _ _ Hm) as Hdom. split; [done|].
  rewrite <-size_dom, Hdom. by rewrite (size_list_to_set _ NoDup_available_tools).
Qed.

Lemma well_formed_blank_response : well_formed blank_response.
Proof.
  intros tool Htool.
  repeat (apply elem_of_cons in Htool as [->|Htool];
          [eexists; split; [reflexivity|intros H; discriminate H]|]).
  by apply elem_of_nil in Htool.
Defined.

Lemma search_links_returns_all_witness :
  ∃ m, search_links (λ _ _, ([blank_response], None)) "test"
         {| prompt := "q"; tools := [] |} (Some "test") = Returns m
    ∧ dom m = list_to_set available_tools
    ∧ size m = 9.
Proof.
  refine (search_links_returns_all (λ _ _, ([blank_response], None))
            {| prompt := "q"; tools := [] |} "test" [blank_response] eq_refl _).
  constructor; [apply well_formed_blank_response|constructor].
Defined.

(** An exception of the query execution reaches the caller in two ways:
    the streaming endpoint still answers normally, with the events of the
    chunks received and the error event last; a link endpoint answers 500
    and gives none of the responses received before the failure. *)
Theorem upstream_failure_by_mode
    (organic : organic_run) (body : LinksSearchRequest) (key : string)
    (requested : list string) (chunks : list string) (synapses : list synapse)
    (str_e : list N) :
  organic (prompt body) requested = (synapses, Some (Exception str_e)) →
  search (yields chunks (Raising (Exception str_e))) key (Some key)
    = Returns ((sse_event <$> chunks) ++ [error_event str_e], Returned)
  ∧ handle_search_links organic body (Some key) key requested
    = HTTPException 500 "Internal Server Error".
Proof.
  intros Hrun. split.
  - unfold search. rewrite decide_False by (by intros H).
    unfold response_stream_event. rewrite relay_loop_yields. simpl.
    by rewrite app_nil_r.
  - unfold handle_search_links. rewrite decide_False by (by intros H).
    by rewrite Hrun.
Qed.

Lemma upstream_failure_by_mode_witness :
  search (yields ["a"] (Raising (Exception (code_points "down")))) "test" (Some "test")
    = Returns ([sse_event "a"; error_event (code_points "down")], Returned)
  ∧ handle_search_links (λ _ _, ([response_ab], Some (Exception (code_points "down"))))
      {| prompt := "q"; tools := [] |} (Some "test") "test" ["Google Search"]
    = HTTPException 500 "Internal Server Error".
Proof.
  exact (upstream_failure_by_mode
           (λ _ _, ([response_ab], Some (Exception (code_points "down"))))
           {| prompt := "q"; tools := [] |} "test" ["Google Search"] ["a"]
           [response_ab] (code_points "down") eq_refl).
Defined.

End endpoint_facts.

(** * The refill, whatever the order of equal scores *)

Section selector_any_order.
Import UIDManager Ranking.

Lemma filter_none {A} (P : A → Prop) `{!∀ x, Decision (P x)} (l : list A) :
  (∀ x, x ∈ l → ¬ P x) → filter P l = [].
Proof.
  induction l as [|x l IH]; intros Hnone; [done|].
  rewrite filter_cons_False by (apply Hnone; by left).
  apply IH. intros y Hy. apply Hnone. by right.
Qed.

Lemma filter_all {A} (P : A → Prop) `{!∀ x, Decision (P x)} (l : list A) :
  (∀ x, x ∈ l → P x) → filter P l = l.
Proof.
  induction l as [|x l IH]; intros Hall; [done|].
  rewrite filter_cons_True by (apply Hall; by left).
  f_equal. apply IH. intros y Hy. apply Hall. by right.
Qed.

Lemma descending_Permutation I : reverse (argsort I) ≡ₚ seq 0 (length I).
Proof. by rewrite reverse_Permutation, argsort_Permutation. Qed.

Lemma descending_sorted I :
  StronglySorted (at_least_as_good I) (reverse (argsort I)).
Proof. apply StronglySorted_reverse, argsort_sorted. Qed.

Lemma top_of_possibly I k u : u ∈ top_of I k → possibly_top I k u.
Proof.
  unfold top_of. intros (i & Hi & Hik)%elem_of_take. split.
  { apply elem_of_argsort. rewrite <-elem_of_reverse. by eapply list_elem_of_lookup_2. }
  unfold strictly_better. rewrite <-(descending_Permutation I).
  pose proof (descending_sorted I) as Hsorted.
  rewrite <-(take_drop_middle _ _ _ Hi) in Hsorted |- *.
  apply StronglySorted_app in Hsorted as (_ & _ & Hrest).
  apply StronglySorted_cons in Hrest as [Hafter _].
  rewrite filter_app, (filter_none _ (u :: _)), app_nil_r.
  - pose proof (length_filter (λ v, (score I u < score I v)%Z)
                  (take i (reverse (argsort I)))) as Hle.
    rewrite length_take in Hle. lia.
  - intros x [->|Hx]%elem_of_cons; [lia|].
    rewrite Forall_forall in Hafter. specialize (Hafter x Hx).
    unfold at_least_as_good in Hafter. lia.
Qed.

Lemma top_of_surely I k u : surely_top I k u → u ∈ top_of I k.
Proof.
  intros [Hu Hrivals]. unfold top_of, rivals in *.
  assert (u ∈ reverse (argsort I)) as Hin
    by (rewrite elem_of_reverse; by apply elem_of_argsort).
  apply list_elem_of_split in Hin as (l1 & l2 & Hsplit).
  pose proof (descending_sorted I) as Hsorted.
  assert (NoDup (reverse (argsort I))) as Hnodup
    by (rewrite reverse_Permutation; apply NoDup_argsort).
  rewrite <-(descending_Permutation I) in Hrivals.
  rewrite Hsplit in Hsorted, Hnodup, Hrivals |- *.
  apply StronglySorted_app in Hsorted as (Hbefore & _ & _).
  apply NoDup_app in Hnodup as (_ & Hfresh & _).
  rewrite filter_app, length_app in Hrivals.
  rewrite (filter_all _ l1) in Hrivals.
  - apply elem_of_take. exists (length l1). split; [|lia].
    by rewrite list_lookup_middle.
  - intros x Hx. split.
    + intros ->. apply (Hfresh u Hx). by left.
    + apply (Hbefore x u Hx). by left.
Qed.

(** C2, as the code has it: a draw on an empty draw list refills the list
    from the last-known available uids and returns one of them whenever
    one of them is among the [max_miners_to_use] best-scored uids of the
    metagraph however equal scores are ordered; it raises [IndexError]
    when none of them is among these for any order of the equal scores,
    in particular when no uid is known.  The uid returned and the uids
    left are available and among the best for some order; every available
    uid that is among the best for every order is returned or left. *)
Theorem draw_on_empty_refills (s : state) (r : nat) :
  uids s = [] →
  ((∃ uid, uid ∈ available_uids s
           ∧ surely_top (metagraph_I s) (max_miners_to_use s) uid) →
   ∃ uid s', get_miner_uid r s = Ok (uid, s')
     ∧ uid ∈ available_uids s
     ∧ possibly_top (metagraph_I s) (max_miners_to_use s) uid
     ∧ (uid ∉ uids s')
     ∧ (∀ x, x ∈ uids s' →
             x ∈ available_uids s
             ∧ possibly_top (metagraph_I s) (max_miners_to_use s) x)
     ∧ (∀ x, x ∈ available_uids s →
             surely_top (metagraph_I s) (max_miners_to_use s) x →
             x ≠ uid → x ∈ uids s'))
  ∧ ((∀ uid, uid ∈ available_uids s →
             ¬ possibly_top (metagraph_I s) (max_miners_to_use s) uid) →
     get_miner_uid r s = Raise IndexError).
Proof.
  intros Hempty. destruct (draw_on_empty_top_of s r Hempty) as [Hsome Hnone].
  split.
  - intros (uid0 & Havail & Htop%top_of_surely).
    destruct Hsome as (uid & s' & Hget & Huid & Huid_top & Hleft); [by exists uid0|].
    exists uid, s'. split_and!; [done|done|by apply top_of_possibly| | |].
    + intros Hin. apply Hleft in Hin as [Hne _]. done.
    + intros x (_ & Hx & Hx_top)%Hleft. split; [done|by apply top_of_possibly].
    + intros x Hx Hx_top%top_of_surely Hne. by apply Hleft.
  - intros Hnever. apply Hnone. intros uid Huid Htop%top_of_possibly.
    by apply (Hnever uid).
Qed.

Lemma draw_on_empty_refills_witness :
  uids five_workers_exhausted = []
  ∧ ∃ uid s', get_miner_uid 1 five_workers_exhausted = Ok (uid, s')
      ∧ uid ∈ available_uids five_workers_exhausted
      ∧ (uid ∉ uids s').
Proof.
  assert (uids five_workers_exhausted = []) as Hempty by reflexivity.
  split; [exact Hempty|].
  destruct (proj1 (draw_on_empty_refills five_workers_exhausted 1 Hempty))
    as (uid & s' & Hget & Huid & _ & Hfresh & _).
  - exists 2. split.
    + apply (bool_decide_unpack _). vm_compute. exact I.
    + split; vm_compute; lia.
  - exists uid, s'. split_and!; [exact Hget|exact Huid|exact Hfresh].
Defined.

End selector_any_order.
